(** * good-mood-generator: quote selection and theme resolution

    A shallow embedding of the two stateful pieces of the page:
    - [src/composables/useQuotes.ts]: the composable holding the index of the
      displayed quote ([pickNewIndex], [currentQuote], [nextQuote]);
    - [src/components/ThemeToggle.vue]: the theme switch ([applyTheme] and
      the [onMounted] hook that resolves the initial theme);
    and of what [src/views/HomeView.vue] shows of the current quote.

    JavaScript numbers are modelled as binary64 values: [NaN], the
    infinities, [-0] and the finite doubles, each kept as a whole number of
    [2^-1074]. The product is rounded to nearest, ties to even, and is proved
    to be the product of the IEEE 754 specification of the standard library
    ([NumberIEEE.mul_spec]). [localStorage] is a finite map from strings to
    strings. *)

From Stdlib Require Import ZArith Lia List String Floats.SpecFloat.
From stdpp Require Import base option list strings gmap.

Local Open Scope Z_scope.

(** * Numbers *)

Module Number.

(** The least positive double is [2^-1074], and every finite double is a
    multiple of it: a finite number is kept as that multiple. *)
Definition one : Z := 2 ^ 1074.

(** A value of type [number]. [Finite k] is the real [k / 2^1074], and
    [Finite 0] is [+0]. *)
Inductive number :=
  | NaN
  | Infinity (negative : bool)
  | NegZero
  | Finite (k : Z).

(** The number of value [z], and the number of value [m * 2^e]. *)
Definition of_Z (z : Z) : number := Finite (z * one).

Definition double (m e : Z) : number := Finite (m * 2 ^ (e + 1074)).

(** The multiples that are doubles have 53 significant bits at most, and are
    below [2^1024]. *)
Definition significant (k : Z) : bool :=
  (Z.abs k <? 2 ^ 53) || (Z.abs k mod 2 ^ (Z.log2 (Z.abs k) - 52) =? 0).

Definition is_double (x : number) : bool :=
  match x with
  | Finite k => significant k && (Z.abs k <? 2 ^ 2098)
  | _ => true
  end.

(** The real a number stands for, in units of [2^-1074], when it is finite. *)
Definition finite_value (x : number) : option Z :=
  match x with
  | NegZero => Some 0
  | Finite k => Some k
  | _ => None
  end.

(** [x === y]. *)
Definition strict_eq (x y : number) : bool :=
  match x, y with
  | NaN, _ | _, NaN => false
  | Infinity s, Infinity t => Bool.eqb s t
  | Infinity _, _ | _, Infinity _ => false
  | _, _ =>
      match finite_value x, finite_value y with
      | Some a, Some b => a =? b
      | _, _ => false
      end
  end.

(** [x <= y]. *)
Definition le (x y : number) : bool :=
  match x, y with
  | NaN, _ | _, NaN => false
  | Infinity true, _ => true
  | _, Infinity false => true
  | Infinity false, _ => false
  | _, Infinity true => false
  | _, _ =>
      match finite_value x, finite_value y with
      | Some a, Some b => a <=? b
      | _, _ => false
      end
  end.

(** The sign bit and the magnitude, in units of [2^-1074], of a number that
    is not [NaN]. *)
Definition negative (x : number) : bool :=
  match x with
  | NaN => false
  | Infinity s => s
  | NegZero => true
  | Finite k => k <? 0
  end.

Definition magnitude (x : number) : Z :=
  match x with
  | Finite k => Z.abs k
  | _ => 0
  end.

Definition is_zero (x : number) : bool :=
  match x with
  | NegZero => true
  | Finite k => k =? 0
  | _ => false
  end.

(** The exact product of two magnitudes is a multiple [n] of [2^-2148]. The
    doubles around it are spaced by [2^(ulp_exp n)] of these units: 53 bits
    are kept, and no bit below [2^-1074]. *)
Definition ulp_exp (n : Z) : Z := Z.max (Z.log2 n - 52) 1074.

(** The multiple of [p] nearest to [n], as a number of [p]s, and the even
    one when [n] is half way between two. *)
Definition nearest_even (n p : Z) : Z :=
  let q := n / p in
  let r := n mod p in
  if 2 * r <? p then q
  else if p <? 2 * r then q + 1
  else if Z.even q then q else q + 1.

(** Rounding to the nearest of these doubles, ties to even. *)
Definition round_even (n : Z) : Z :=
  nearest_even n (2 ^ ulp_exp n) * 2 ^ ulp_exp n.

(** The number of sign [s] and magnitude [k]; it is infinite from [2^1024]
    on. *)
Definition signed (s : bool) (k : Z) : number :=
  if k =? 0 then (if s then NegZero else Finite 0)
  else if 2 ^ 2098 <=? k then Infinity s
  else Finite (if s then - k else k).

(** [x * y]. *)
Definition mul (x y : number) : number :=
  match x, y with
  | NaN, _ | _, NaN => NaN
  | Infinity s, _ =>
      if is_zero y then NaN else Infinity (xorb s (negative y))
  | _, Infinity s =>
      if is_zero x then NaN else Infinity (xorb (negative x) s)
  | _, _ =>
      signed (xorb (negative x) (negative y))
             (round_even (magnitude x * magnitude y) / one)
  end.

(** [Math.floor(x)]. *)
Definition floor (x : number) : number :=
  match x with
  | Finite k => Finite (k / one * one)
  | _ => x
  end.

(** ** The representation of the standard library *)

(** Whether the bits of [m] below position [j] are not all zero. *)
Definition sticky (m j : Z) : bool := negb (m mod 2 ^ j =? 0).

(** What [binary_round_aux] makes of the mantissa and the exponent it ends
    with. *)
Definition pack (s : bool) (q e : Z) : spec_float :=
  match q with
  | 0 => S754_zero s
  | Z.pos m => if e <=? 971 then S754_finite s m e else S754_infinity s
  | Z.neg _ => S754_nan
  end.

(** The mantissa and the exponent of the double [k * 2^-1074]. *)
Definition shift_of (k : Z) : Z := Z.max (Z.log2 (Z.abs k) - 52) 0.

Definition mantissa (k : Z) : Z := Z.abs k / 2 ^ shift_of k.

Definition exponent (k : Z) : Z := shift_of k - 1074.

(** The same number in the representation of the IEEE 754 specification of
    the standard library. *)
Definition to_spec (x : number) : spec_float :=
  match x with
  | NaN => S754_nan
  | Infinity s => S754_infinity s
  | NegZero => S754_zero true
  | Finite k => binary_normalize 53 1024 k (-1074) false
  end.

End Number.

(** * The quote selector ([useQuotes.ts]) *)

Module Quotes.
Import Number.

(** Modelled from the spec: the type [QuoteItem] of [src/types/quote.ts],
    which [useQuotes.ts] imports; the spec gives a quote a [text] and an
    optional author with a [name] and an optional [bio] and [photo]. *)
Record Author := {
  name : string;
  bio : option string;
  photo : option string
}.

Record QuoteItem := {
  text : string;
  author : option Author
}.

(** One value returned by [Math.random()]. *)
Definition Sample := number.

(** [Math.random()] yields a double of [0, 1). *)
Definition unit_sampleb (r : Sample) : bool :=
  match r with
  | Finite k => (0 <=? k) && (k <? one) && significant k
  | _ => false
  end.

Definition unit_sample (r : Sample) : Prop := unit_sampleb r = true.

(** [Math.floor(Math.random() * length)] for the sample [r]. *)
Definition draw (r : Sample) (length : number) : number :=
  floor (mul r length).

(** The loop [while (next === current) next = Math.floor(...)] of
    [pickNewIndex], run on the successive values of [Math.random()].  The
    result is [None] when the samples at hand are used up with the loop still
    running, and otherwise the value of [next] on exit together with the
    samples that were not consumed. *)
Fixpoint redraw (rs : list Sample) (current length next : number)
  : option (number * list Sample) :=
  if strict_eq next current then
    match rs with
    | [] => None
    | r :: rs' => redraw rs' current length (draw r length)
    end
  else Some (next, rs).

(** [function pickNewIndex(current, length)]. *)
Definition pickNewIndex (rs : list Sample) (current length : number)
  : option (number * list Sample) :=
  if le length (of_Z 1) then Some (of_Z 0, rs)
  else redraw rs current length current.

(** The state of one [useQuotes()] instance: the module-level array [quotes]
    and the ref [currentIndex]. *)
Record State := {
  quotes : list QuoteItem;
  currentIndex : number
}.

(** [const currentIndex = ref(0)]. *)
Definition useQuotes (qs : list QuoteItem) : State :=
  {| quotes := qs; currentIndex := of_Z 0 |}.

(** The number of quotes, and [quotes.length]; an array has fewer than
    [2^32] elements, so that its length is a double. *)
Definition count (st : State) : Z := Z.of_nat (length (quotes st)).

Definition quotes_length (st : State) : number := of_Z (count st).

(** What an expression of type [QuoteItem | null | undefined] evaluates to. *)
Inductive Value :=
  | Undefined
  | Null
  | Item (q : QuoteItem).

(** [quotes[i]]: [undefined] unless [i] is a position of the array, that is
    an integer from 0 on ([-0] is the key ["0"] as [+0] is). *)
Definition index (qs : list QuoteItem) (i : number) : Value :=
  match finite_value i with
  | Some k =>
      if (0 <=? k) && (k mod one =? 0) then
        match qs !! Z.to_nat (k / one) with
        | Some q => Item q
        | None => Undefined
        end
      else Undefined
  | None => Undefined
  end.

(** [v ?? d]. *)
Definition coalesce (v d : Value) : Value :=
  match v with
  | Undefined | Null => d
  | Item _ => v
  end.

(** Whether [!x] holds for a number: [0], [-0] and [NaN] count as false. *)
Definition falsy (x : number) : bool :=
  match x with
  | NaN | NegZero => true
  | Finite k => k =? 0
  | Infinity _ => false
  end.

(** The getter of the computed [currentQuote]. *)
Definition currentQuote (st : State) : Value :=
  if falsy (quotes_length st) then Null
  else coalesce (index (quotes st) (currentIndex st)) Null.

(** [function nextQuote()]. *)
Definition nextQuote (rs : list Sample) (st : State)
  : option (State * list Sample) :=
  match pickNewIndex rs (currentIndex st) (quotes_length st) with
  | Some (next, rs') => Some ({| quotes := quotes st; currentIndex := next |}, rs')
  | None => None
  end.

(** The operations the composable hands to its callers. *)
Inductive Op := ReadCurrentQuote | CallNextQuote.

(** One operation: the new state, what the caller gets back and the samples
    left. *)
Definition step (o : Op) (rs : list Sample) (st : State)
  : option (State * Value * list Sample) :=
  match o with
  | ReadCurrentQuote => Some (st, currentQuote st, rs)
  | CallNextQuote =>
      match nextQuote rs st with
      | Some (st', rs') => Some (st', Undefined, rs')
      | None => None
      end
  end.

(** A sequence of operations, one after the other. *)
Fixpoint run (os : list Op) (rs : list Sample) (st : State)
  : option (State * list Sample) :=
  match os with
  | [] => Some (st, rs)
  | o :: os' =>
      match step o rs st with
      | Some (st', _, rs') => run os' rs' st'
      | None => None
      end
  end.

(** A number that is an integer of [[0, len)]. *)
Definition is_index (x : number) (len : Z) : Prop :=
  ∃ i, 0 <= i < len ∧ x = of_Z i.

(** A state whose index is that of one of the quotes. *)
Definition in_range (st : State) : Prop :=
  is_index (currentIndex st) (count st).

(** The states a session goes through: the one [useQuotes()] sets up, and the
    states after each click on the button. *)
Inductive reachable (qs : list QuoteItem) : State → Prop :=
  | reachable_init : reachable qs (useQuotes qs)
  | reachable_next (rs rest : list Sample) (st st' : State) :
      reachable qs st → Forall unit_sample rs →
      nextQuote rs st = Some (st', rest) → reachable qs st'.

(** The collection of the scenario of the spec, [{text:"A"}, {text:"B"},
    {text:"C"}], and a collection of one quote. *)
Definition quote_of (t : string) : QuoteItem := {| text := t; author := None |}.

Definition three_quotes : list QuoteItem :=
  [quote_of "A"; quote_of "B"; quote_of "C"].

Definition one_quote : list QuoteItem := [quote_of "A"].

(** Values of [Math.random()]: [0], [0.5], [0.75] and
    [0.6666666666666666], the double next to two thirds. *)
Definition sample_0 : Sample := Finite 0.

Definition sample_half : Sample := double 1 (-1).

Definition sample_three_quarters : Sample := double 3 (-2).

Definition sample_two_thirds : Sample := double 6004799503160661 (-53).

End Quotes.

(** * The theme switch ([ThemeToggle.vue]) *)

Module Theme.

(** [window]: [matchMedia] is [None] when [typeof window.matchMedia] is not
    ["function"], and otherwise gives, for a media query, the [matches] field
    of the list it returns. *)
Record Window := {
  matchMedia : option (string → bool)
}.

(** What the component reads and writes: the global [window] ([None] when
    [typeof window] is ["undefined"]), the store behind [localStorage] ([None]
    when the platform refuses access to it, so that every use raises), the
    attributes of [document.documentElement] and the ref [isDark]. *)
Record World := {
  window : option Window;
  localStorage : option (gmap string string);
  attributes : gmap string string;
  isDark : bool
}.

(** How an evaluation ends. *)
Inductive Completion (A : Type) :=
  | Normal (a : A)
  | Throw.
Arguments Normal {A} a.
Arguments Throw {A}.

(** Statements of the component: they run in a world, change it, and end
    normally or by raising. *)
Definition M (A : Type) : Type := World → Completion A * World.

#[global] Instance M_ret : MRet M := λ A a w, (Normal a, w).

#[global] Instance M_bind : MBind M := λ A B f m w,
  match m w with
  | (Normal a, w') => f a w'
  | (Throw, w') => (Throw, w')
  end.

(** [localStorage.getItem(key)]; [None] is [null]. *)
Definition getItem (key : string) : M (option string) := λ w,
  match localStorage w with
  | Some store => (Normal (store !! key), w)
  | None => (Throw, w)
  end.

(** [localStorage.setItem(key, value)]. *)
Definition setItem (key value : string) : M unit := λ w,
  match localStorage w with
  | Some store =>
      (Normal tt,
       {| window := window w; localStorage := Some (<[key := value]> store);
          attributes := attributes w; isDark := isDark w |})
  | None => (Throw, w)
  end.

(** [document.documentElement.setAttribute(name, value)]. *)
Definition setAttribute (name value : string) : M unit := λ w,
  (Normal tt,
   {| window := window w; localStorage := localStorage w;
      attributes := <[name := value]> (attributes w); isDark := isDark w |}).

(** [isDark.value]. *)
Definition read_isDark : M bool := λ w, (Normal (isDark w), w).

(** [isDark.value = v]. *)
Definition write_isDark (v : bool) : M unit := λ w,
  (Normal tt,
   {| window := window w; localStorage := localStorage w;
      attributes := attributes w; isDark := v |}).

(** [typeof window !== "undefined" && typeof window.matchMedia === "function"
    && window.matchMedia("(prefers-color-scheme: dark)").matches]. *)
Definition prefers_dark : M bool := λ w,
  (Normal
     match window w with
     | None => false
     | Some win =>
         match matchMedia win with
         | None => false
         | Some query => query "(prefers-color-scheme: dark)"%string
         end
     end, w).

(** [saved === s] for the value [saved] of [getItem]. *)
Definition strict_eq (saved : option string) (s : string) : bool :=
  match saved with
  | Some t => String.eqb t s
  | None => false
  end.

Definition STORAGE_KEY : string := "good-mood.theme".

(** [dark ? "dark" : "light"]. *)
Definition theme_name (dark : bool) : string :=
  if dark then "dark"%string else "light"%string.

(** [function applyTheme(dark)]. *)
Definition applyTheme (dark : bool) : M unit :=
  let theme := theme_name dark in
  setAttribute "data-theme" theme ;;
  setItem STORAGE_KEY theme.

(** The first statements of the [onMounted] hook, up to the call of
    [applyTheme]: they settle [isDark], whose value is the result. *)
Definition resolveInitial : M bool :=
  saved ← getItem STORAGE_KEY;
  (if strict_eq saved "dark" || strict_eq saved "light"
   then write_isDark (strict_eq saved "dark")
   else (hint ← prefers_dark; write_isDark hint)) ;;
  read_isDark.

(** The hook given to [onMounted]. *)
Definition onMounted : M unit :=
  dark ← resolveInitial;
  applyTheme dark.

(** The user flips the switch: [v-model] negates [isDark] and the watcher
    [watch(isDark, (v) => applyTheme(v))] runs. *)
Definition toggle : M unit :=
  v ← read_isDark;
  write_isDark (negb v) ;;
  applyTheme (negb v).

(** A reload of the page: a new document and a new component instance over
    the same platform and the same store. *)
Definition reload (w : World) : World :=
  {| window := window w; localStorage := localStorage w;
     attributes := ∅; isDark := false |}.

(** The hint of the operating system as the platform exposes it: [None] when
    there is no [window] or no [matchMedia], and otherwise whether the query
    [(prefers-color-scheme: dark)] matches. *)
Definition os_hint (w : World) : option bool :=
  win ← window w;
  query ← matchMedia win;
  Some (query "(prefers-color-scheme: dark)"%string).

(** What the store holds under the key of the component, when there is a
    store. *)
Definition persisted (w : World) : option string :=
  store ← localStorage w;
  store !! STORAGE_KEY.

(** What [isDark] becomes, given what the store holds under the key and
    the hint of the operating system. *)
Definition resolved (saved : option string) (hint : option bool) : bool :=
  if strict_eq saved "dark" || strict_eq saved "light"
  then strict_eq saved "dark"
  else default false hint.

(** A first visit on a platform that prefers dark. *)
Definition first_visit_dark : World :=
  {| window := Some {| matchMedia := Some (λ _, true) |};
     localStorage := Some ∅; attributes := ∅; isDark := false |}.

(** A platform that prefers dark, with a value of another version of the
    page left in the store. *)
Definition stale_store : World :=
  {| window := Some {| matchMedia := Some (λ _, true) |};
     localStorage := Some {[ STORAGE_KEY := "blue"%string ]};
     attributes := ∅; isDark := false |}.

(** A platform without [window] that refuses access to the store. *)
Definition no_store : World :=
  {| window := None; localStorage := None; attributes := ∅; isDark := false |}.

End Theme.

(** * The page ([HomeView.vue]) *)

Module HomeView.
Import Quotes.

(** [currentQuote.author?.name], [currentQuote.author?.bio] and
    [currentQuote.author?.photo]; [None] is [undefined]. *)
Definition author_name (q : QuoteItem) : option string :=
  a ← author q; Some (name a).

Definition author_bio (q : QuoteItem) : option string :=
  a ← author q; bio a.

Definition author_photo (q : QuoteItem) : option string :=
  a ← author q; photo a.

(** Whether a value of type [string | undefined] counts as true in a
    condition: [undefined] and the empty string do not. *)
Definition truthy (s : option string) : bool :=
  match s with
  | Some t => negb (String.eqb t "")
  | None => false
  end.

(** [currentQuote.author?.name ? `Photo de ${currentQuote.author.name}` :
    'Photo auteur']. *)
Definition photo_alt (q : QuoteItem) : string :=
  if truthy (author_name q)
  then match author q with
       | Some a => String.append "Photo de " (name a)
       | None => "Photo auteur"%string
       end
  else "Photo auteur"%string.

(** The props the template binds on the components of the card. *)
Record Card := {
  photo_src : option string;
  photo_alt_text : string;
  author_prop : option string;
  bio_prop : option string;
  citation_text : string;
  share_text : string;
  share_author : option string
}.

Definition card_of (q : QuoteItem) : Card :=
  {| photo_src := author_photo q;
     photo_alt_text := photo_alt q;
     author_prop := author_name q;
     bio_prop := author_bio q;
     citation_text := text q;
     share_text := text q;
     share_author := author_name q |}.

(** What the template shows: the paragraph of [v-if="!currentQuote"], or the
    card of the [v-else] branch, in which the button is. *)
Inductive Rendered :=
  | Fallback (message : string)
  | Shown (c : Card).

Definition render (st : State) : Rendered :=
  match currentQuote st with
  | Item q => Shown (card_of q)
  | Null | Undefined => Fallback "Aucune citation disponible."
  end.

End HomeView.

(** * States of the theme switch *)

Module ThemeState.
Import Theme.

(** The attribute of the document, the store and the switch agree. *)
Definition synced (w : World) : Prop :=
  attributes w !! "data-theme"%string = Some (theme_name (isDark w)) ∧
  persisted w = Some (theme_name (isDark w)).

(** The same world on a platform whose [window] has become [win]: the
    operating system may change its hint between two visits. *)
Definition with_window (win : option Window) (w : World) : World :=
  {| window := win; localStorage := localStorage w;
     attributes := attributes w; isDark := isDark w |}.

(** What the store holds under [key], when there is a store. *)
Definition stored (key : string) (w : World) : option string :=
  store ← localStorage w;
  store !! key.

(** A visit with the dark theme in place, and keys and attributes of other
    parts of the page around. *)
Definition dark_visit : World :=
  {| window := Some {| matchMedia := Some (λ _, false) |};
     localStorage :=
       Some (<[STORAGE_KEY := "dark"%string]> {[ "lang"%string := "fr"%string ]});
     attributes :=
       <["data-theme"%string := "dark"%string]> {[ "lang"%string := "fr"%string ]};
     isDark := true |}.

(** A platform that prefers dark and refuses access to the store. *)
Definition dark_no_store : World :=
  {| window := Some {| matchMedia := Some (λ _, true) |};
     localStorage := None; attributes := ∅; isDark := false |}.

End ThemeState.

(** * Properties of numbers *)

Module NumberSpec.
Import Number.

Lemma one_pos : 0 < one.
Proof. unfold one. by apply Z.pow_pos_nonneg. Qed.

Lemma one_split : one = 2 ^ 1021 * 2 ^ 53.
Proof. unfold one. by rewrite <- Z.pow_add_r. Qed.

Lemma of_Z_inj (a b : Z) : of_Z a = of_Z b → a = b.
Proof.
  unfold of_Z. intros [= H]. pose proof one_pos.
  apply (Z.mul_cancel_r a b one); lia.
Qed.

(** ** Comparisons *)

Lemma strict_eq_of_Z (a b : Z) : strict_eq (of_Z a) (of_Z b) = (a =? b).
Proof.
  unfold of_Z. simpl. pose proof one_pos.
  destruct (Z.eqb_spec a b) as [->|Hne]; [apply Z.eqb_refl|].
  apply Z.eqb_neq. intros Heq. apply Hne.
  apply (Z.mul_cancel_r a b one); lia.
Qed.

Lemma le_of_Z (a b : Z) : le (of_Z a) (of_Z b) = (a <=? b).
Proof.
  unfold of_Z. simpl. pose proof one_pos.
  destruct (Z.leb_spec a b); [apply Z.leb_le|apply Z.leb_gt]; nia.
Qed.

Lemma strict_eq_sym (x y : number) : strict_eq x y = strict_eq y x.
Proof.
  destruct x as [|s| |a], y as [|t| |b]; simpl; try done;
    try apply Z.eqb_sym.
  by destruct s, t.
Qed.

(** A number is equal to itself unless it is [NaN]. *)
Lemma strict_eq_refl (x : number) : strict_eq x x = true ↔ x ≠ NaN.
Proof.
  destruct x as [|s| |a]; simpl; split; try done.
  - by destruct s.
  - intros _. apply Z.eqb_refl.
Qed.

Lemma strict_eq_NaN (x : number) : strict_eq x NaN = false.
Proof. by destruct x. Qed.

(** ** Doubles below 1 *)

(** The doubles below 1 end at [1 - 2^-53]. *)
Lemma significant_gap (a : Z) :
  0 <= a < one → significant a = true → a + 2 ^ 1021 <= one.
Proof.
  intros [Ha0 Ha1] Hs. unfold significant in Hs. rewrite Z.abs_eq in Hs by done.
  assert (H53 : 2 ^ 53 + 2 ^ 1021 <= one).
  { unfold one. by vm_compute. }
  apply orb_true_iff in Hs as [Hs|Hs].
  - apply Z.ltb_lt in Hs. lia.
  - destruct (Z.lt_ge_cases a (2 ^ 53)) as [|Hbig]; [lia|].
    apply Z.eqb_eq in Hs.
    assert (Hapos : 0 < a) by (pose proof (Z.pow_pos_nonneg 2 53); lia).
    assert (Hlog : 53 <= Z.log2 a) by (by apply Z.log2_le_pow2).
    assert (Hlog' : Z.log2 a < 1074).
    { apply Z.log2_lt_pow2; [done|]. exact Ha1. }
    destruct (Z.eq_dec (Z.log2 a) 1073) as [Heq|Hneq].
    + rewrite Heq in Hs. change (1073 - 52) with 1021 in Hs.
      apply Z.mod_divide in Hs as [c Hc]; [|by apply Z.pow_nonzero].
      rewrite one_split in *. pose proof (Z.pow_pos_nonneg 2 1021).
      assert (c < 2 ^ 53) by nia. nia.
    + assert (a < 2 ^ 1073).
      { apply Z.log2_lt_pow2; [done|lia]. }
      assert (2 ^ 1073 + 2 ^ 1021 <= one) by (unfold one; by vm_compute).
      lia.
Qed.

(** ** Rounding *)

Lemma ulp_exp_pos (n : Z) : 0 < 2 ^ ulp_exp n.
Proof. apply Z.pow_pos_nonneg; [done|]. unfold ulp_exp. lia. Qed.

(** The double chosen is the one just below or the one just above, and the
    one above only from half way on. *)
Lemma nearest_even_cases (n p : Z) :
  nearest_even n p = n / p ∨
  (nearest_even n p = n / p + 1 ∧ p <= 2 * (n mod p)).
Proof.
  unfold nearest_even.
  destruct (Z.ltb_spec (2 * (n mod p)) p); [by left|].
  destruct (Z.ltb_spec p (2 * (n mod p))); [by right|].
  destruct (Z.even (n / p)); [by left|by right].
Qed.

Lemma round_even_cases (n : Z) :
  let p := 2 ^ ulp_exp n in
  round_even n = n / p * p ∨
  (round_even n = (n / p + 1) * p ∧ p <= 2 * (n mod p)).
Proof.
  intros p. unfold round_even. fold p.
  destruct (nearest_even_cases n p) as [->|[-> ?]]; auto.
Qed.

(** With more than 53 bits, the multiple kept has 53 bits. *)
Lemma ulp_exp_normal (n : Z) :
  0 < n → ulp_exp n ≠ 1074 → 2 ^ 52 * 2 ^ ulp_exp n <= n.
Proof.
  intros Hn Hs. unfold ulp_exp in *.
  assert (Hmax : Z.max (Z.log2 n - 52) 1074 = Z.log2 n - 52) by lia.
  rewrite Hmax. rewrite <- Z.pow_add_r by lia.
  replace (52 + (Z.log2 n - 52)) with (Z.log2 n) by lia.
  by apply Z.log2_spec.
Qed.

(** The product of a double below 1 by a whole number [len] rounds to a
    double below [len]. *)
Lemma round_even_product_below (a len : Z) :
  0 <= a → a + 2 ^ 1021 <= one → 1 <= len →
  0 <= round_even (a * (len * one)) < len * one * one.
Proof.
  intros Ha0 Ha1 Hlen. pose proof one_pos as Hone.
  set (n := a * (len * one)).
  assert (Hn0 : 0 <= n) by (unfold n; nia).
  pose proof (ulp_exp_pos n) as Hp.
  pose proof (Z.pow_pos_nonneg 2 1021 ltac:(done) ltac:(done)) as Ht.
  assert (Hbelow : n + len * one * 2 ^ 1021 <= len * one * one) by (unfold n; nia).
  pose proof (Z.div_mod n (2 ^ ulp_exp n) ltac:(lia)) as Hdiv.
  pose proof (Z.mod_pos_bound n (2 ^ ulp_exp n) Hp) as Hmod.
  assert (Hq0 : 0 <= n / 2 ^ ulp_exp n) by (apply Z.div_pos; lia).
  destruct (round_even_cases n) as [->|[-> Hhalf]].
  - split; [nia|]. nia.
  - split; [nia|].
    destruct (Z.eq_dec (ulp_exp n) 1074) as [Hs|Hs].
    + rewrite Hs in *. fold one in Hmod, Hhalf, Hdiv, Hp |- *.
      assert (Hrem : n mod one = 0).
      { unfold n. rewrite Z.mul_assoc. apply Z.mod_mul. lia. }
      lia.
    + assert (Hn : 0 < n).
      { destruct (Z.eq_dec n 0) as [H0|]; [|lia].
        exfalso. apply Hs. rewrite H0. reflexivity. }
      pose proof (ulp_exp_normal n Hn Hs) as Hnorm.
      set (p := 2 ^ ulp_exp n) in *. set (q := n / p) in *.
      set (r := n mod p) in *.
      destruct (Z.lt_ge_cases ((q + 1) * p) (len * one * one)) as [|Habove];
        [done|exfalso].
      assert (H1 : 2 * (len * one * 2 ^ 1021) <= p) by nia.
      assert (H2 : len * one * one <= 2 ^ 52 * p).
      { rewrite one_split at 2. change (2 ^ 53) with (2 * 2 ^ 52). nia. }
      nia.
Qed.

(** ** Products by a length *)

(** The product of a double of [0, 1) by a length is a number from 0 on,
    below the length. *)
Lemma mul_below (a len : Z) :
  0 <= a → a + 2 ^ 1021 <= one → 1 <= len <= 2 ^ 53 →
  ∃ k, mul (Finite a) (of_Z len) = Finite k ∧ 0 <= k < len * one.
Proof.
  intros Ha0 Ha1 Hlen. pose proof one_pos as Hone.
  unfold mul, of_Z, negative, magnitude, signed.
  assert (Hsa : (a <? 0) = false) by (apply Z.ltb_ge; lia).
  assert (Hsl : (len * one <? 0) = false) by (apply Z.ltb_ge; nia).
  rewrite Hsa, Hsl, (Z.abs_eq a), (Z.abs_eq (len * one)) by nia. simpl xorb.
  pose proof (round_even_product_below a len Ha0 Ha1 ltac:(lia)) as [Hv0 Hv1].
  set (v := round_even (a * (len * one))) in *.
  assert (Hk : 0 <= v / one < len * one).
  { split; [apply Z.div_pos; lia|]. apply Z.div_lt_upper_bound; nia. }
  destruct (Z.eqb_spec (v / one) 0) as [H0|H0].
  - exists 0. split; [done|nia].
  - assert (Hbig : len * one <= 2 ^ 2098).
    { transitivity (2 ^ 53 * one); [nia|]. unfold one. by vm_compute. }
    destruct (Z.leb_spec (2 ^ 2098) (v / one)); [lia|].
    by exists (v / one).
Qed.

Lemma floor_below (k len : Z) :
  0 <= k < len * one →
  ∃ i, 0 <= i < len ∧ floor (Finite k) = of_Z i.
Proof.
  intros [Hk0 Hk1]. pose proof one_pos as Hone.
  exists (k / one). split; [|done].
  split; [apply Z.div_pos; lia|]. apply Z.div_lt_upper_bound; nia.
Qed.

End NumberSpec.

(** * The product and the IEEE 754 specification *)

Module NumberIEEE.
Import Number NumberSpec.

(** ** Digits *)

Lemma digits2_size (p : positive) : digits2_pos p = Pos.size p.
Proof. induction p as [p IH|p IH|]; simpl; by rewrite ?IH. Qed.

Lemma Zdigits2_log2 (m : Z) : 0 < m → Zdigits2 m = Z.log2 m + 1.
Proof.
  destruct m as [|p|p]; try done. intros _. simpl. rewrite digits2_size.
  destruct p as [p|p|]; simpl; try done; rewrite Pos2Z.inj_succ; lia.
Qed.

Lemma log2_bounds (m : Z) : 0 < m → 2 ^ Z.log2 m <= m < 2 ^ (Z.log2 m + 1).
Proof. intros Hm. replace (Z.log2 m + 1) with (Z.succ (Z.log2 m)) by lia. by apply Z.log2_spec. Qed.

(** ** Shifts to the right *)

Lemma shr_1_spec (m : Z) (r s : bool) :
  0 <= m →
  shr_1 {| shr_m := m; shr_r := r; shr_s := s |}
  = {| shr_m := m / 2; shr_r := Z.odd m; shr_s := r || s |}.
Proof.
  intros Hm. rewrite <- Z.div2_div.
  destruct m as [|[p|p|]|p]; simpl; done.
Qed.

Lemma iter_pos_nat {A : Type} (f : A → A) (p : positive) (x : A) :
  SpecFloat.iter_pos f p x = Nat.iter (Pos.to_nat p) f x.
Proof.
  revert x. induction p as [p IH|p IH|]; intros x.
  - change (SpecFloat.iter_pos f p~1 x)
      with (SpecFloat.iter_pos f p (SpecFloat.iter_pos f p (f x))).
    rewrite !IH, Pos2Nat.inj_xI, <- Nat.iter_succ_r, <- Nat.iter_add.
    f_equal. lia.
  - change (SpecFloat.iter_pos f p~0 x)
      with (SpecFloat.iter_pos f p (SpecFloat.iter_pos f p x)).
    rewrite !IH, Pos2Nat.inj_xO, <- Nat.iter_add. f_equal. lia.
  - done.
Qed.

Lemma shr_iter (m : Z) (j : nat) :
  0 <= m →
  Nat.iter (S j) shr_1 {| shr_m := m; shr_r := false; shr_s := false |}
  = {| shr_m := m / 2 ^ (Z.of_nat j + 1);
       shr_r := Z.testbit m (Z.of_nat j);
       shr_s := sticky m (Z.of_nat j) |}.
Proof.
  intros Hm. induction j as [|j IH].
  - rewrite Nat.iter_succ. change (Nat.iter 0 shr_1 ?x) with x.
    rewrite shr_1_spec by done.
    change (Z.of_nat 0 + 1) with 1. change (Z.of_nat 0) with 0.
    unfold sticky. by rewrite Z.bit0_odd, Z.pow_1_r, Z.pow_0_r, Z.mod_1_r.
  - rewrite Nat.iter_succ, IH.
    assert (Hj : 0 <= Z.of_nat j) by lia.
    rewrite shr_1_spec by (apply Z.div_pos; [done|apply Z.pow_pos_nonneg; lia]).
    replace (Z.of_nat (S j)) with (Z.of_nat j + 1) by lia.
    set (i := Z.of_nat j) in *. f_equal.
    + rewrite Z.div_div by lia. f_equal.
      by rewrite (Z.pow_add_r 2 (i + 1) 1), Z.pow_1_r by lia.
    + by rewrite (Z.testbit_odd m (i + 1)), Z.shiftr_div_pow2 by lia.
    + unfold sticky. rewrite (Z.testbit_odd m i), Z.shiftr_div_pow2 by done.
      rewrite (Z.pow_add_r 2 i 1), Z.pow_1_r by lia.
      rewrite Z.rem_mul_r by lia.
      pose proof (Z.mod_pos_bound m (2 ^ i) ltac:(lia)) as Hmod.
      rewrite (Zmod_odd (m / 2 ^ i)).
      destruct (Z.odd (m / 2 ^ i)); simpl.
      * symmetry. apply negb_true_iff, Z.eqb_neq. lia.
      * by rewrite Z.mul_0_r, Z.add_0_r.
Qed.

(** A shift of one bit or more, from an exact record. *)
Lemma shr_spec (m e sh : Z) :
  0 <= m → 0 < sh →
  shr {| shr_m := m; shr_r := false; shr_s := false |} e sh
  = ({| shr_m := m / 2 ^ sh;
        shr_r := Z.testbit m (sh - 1);
        shr_s := sticky m (sh - 1) |}, e + sh).
Proof.
  intros Hm Hsh. destruct sh as [|p|p]; try done. unfold shr.
  rewrite iter_pos_nat.
  destruct (Pos.to_nat p) as [|j] eqn:Hj; [lia|].
  rewrite shr_iter by done.
  replace (Z.of_nat j + 1) with (Z.pos p) by lia.
  by replace (Z.of_nat j) with (Z.pos p - 1) by lia.
Qed.

Lemma shr_none (r : shr_record) (e sh : Z) : sh <= 0 → shr r e sh = (r, e).
Proof. by destruct sh. Qed.

(** ** Rounding *)

(** The rounding of the specification, after a shift of [sh] bits, is the
    nearest multiple of [2^sh], ties to even. *)
Lemma round_nearest_even_spec (m sh : Z) :
  0 <= m → 0 < sh →
  round_nearest_even (m / 2 ^ sh)
    (loc_of_shr_record {| shr_m := m / 2 ^ sh;
                          shr_r := Z.testbit m (sh - 1);
                          shr_s := sticky m (sh - 1) |})
  = nearest_even m (2 ^ sh).
Proof.
  intros Hm Hsh. unfold nearest_even, sticky.
  assert (Hp : 0 < 2 ^ (sh - 1)) by (apply Z.pow_pos_nonneg; lia).
  assert (Hpow : 2 ^ sh = 2 ^ (sh - 1) * 2).
  { rewrite <- (Z.pow_1_r 2) at 3. rewrite <- Z.pow_add_r by lia. f_equal. lia. }
  rewrite (Z.testbit_odd m (sh - 1)), Z.shiftr_div_pow2 by lia.
  assert (Hrem : m mod 2 ^ sh
                 = m mod 2 ^ (sh - 1) + 2 ^ (sh - 1) * ((m / 2 ^ (sh - 1)) mod 2)).
  { rewrite Hpow. apply Z.rem_mul_r; lia. }
  pose proof (Z.mod_pos_bound m (2 ^ (sh - 1)) Hp) as Hlow.
  rewrite (Zmod_odd (m / 2 ^ (sh - 1))) in Hrem.
  destruct (Z.odd (m / 2 ^ (sh - 1))); simpl in Hrem |- *.
  - destruct (Z.eqb_spec (m mod 2 ^ (sh - 1)) 0) as [H0|H0]; simpl.
    + destruct (Z.ltb_spec (2 * (m mod 2 ^ sh)) (2 ^ sh)); [lia|].
      destruct (Z.ltb_spec (2 ^ sh) (2 * (m mod 2 ^ sh))); [lia|]. done.
    + destruct (Z.ltb_spec (2 * (m mod 2 ^ sh)) (2 ^ sh)); [lia|].
      destruct (Z.ltb_spec (2 ^ sh) (2 * (m mod 2 ^ sh))); [done|lia].
  - destruct (Z.eqb_spec (m mod 2 ^ (sh - 1)) 0) as [H0|H0]; simpl;
      by destruct (Z.ltb_spec (2 * (m mod 2 ^ sh)) (2 ^ sh)); [|lia].
Qed.

(** ** The rounding of a mantissa and an exponent *)

Lemma fexp_eq (e : Z) : fexp 53 1024 e = Z.max (e - 53) (-1074).
Proof. reflexivity. Qed.

Lemma nearest_even_nonneg (n p : Z) : 0 <= n → 0 < p → 0 <= nearest_even n p.
Proof.
  intros Hn Hp. assert (0 <= n / p) by (apply Z.div_pos; lia).
  destruct (nearest_even_cases n p) as [->|[-> _]]; lia.
Qed.

Lemma binary_round_aux_exact (s : bool) (m e : Z) :
  0 < m → fexp 53 1024 (Zdigits2 m + e) <= e →
  binary_round_aux 53 1024 s m e loc_Exact = pack s m e.
Proof.
  intros Hm Hsh. unfold binary_round_aux, shr_fexp.
  rewrite shr_none by lia. simpl shr_m. simpl loc_of_shr_record.
  simpl round_nearest_even. rewrite shr_none by lia. simpl shr_m.
  by destruct m.
Qed.

Lemma binary_round_aux_round (s : bool) (m e : Z) :
  0 < m → e < fexp 53 1024 (Zdigits2 m + e) →
  let e1 := fexp 53 1024 (Zdigits2 m + e) in
  let q := nearest_even m (2 ^ (e1 - e)) in
  binary_round_aux 53 1024 s m e loc_Exact
  = if q =? 2 ^ 53 then pack s (2 ^ 52) (e1 + 1) else pack s q e1.
Proof.
  intros Hm Hsh e1 q. unfold binary_round_aux, shr_fexp. fold e1.
  simpl shr_record_of_loc. rewrite shr_spec by lia.
  cbv beta iota. cbn [shr_m].
  rewrite round_nearest_even_spec by lia. fold q.
  replace (e + (e1 - e)) with e1 by lia.
  assert (He1 : -1074 <= e1) by (unfold e1; rewrite fexp_eq; lia).
  assert (Hp : 0 < 2 ^ (e1 - e)) by (apply Z.pow_pos_nonneg; lia).
  assert (Hq0 : 0 <= q) by (apply nearest_even_nonneg; lia).
  assert (Hq1 : q <= 2 ^ 53).
  { assert (m / 2 ^ (e1 - e) < 2 ^ 53); [|unfold q;
      destruct (nearest_even_cases m (2 ^ (e1 - e))) as [->|[-> _]]; lia].
    apply Z.div_lt_upper_bound; [done|]. rewrite <- Z.pow_add_r by lia.
    pose proof (log2_bounds m Hm) as [_ Hup].
    eapply Z.lt_le_trans; [exact Hup|]. apply Z.pow_le_mono_r; [done|].
    unfold e1. rewrite fexp_eq, Zdigits2_log2 by done. lia. }
  destruct (Z.eqb_spec q (2 ^ 53)) as [Hcarry|Hcarry].
  - rewrite Hcarry. change (Zdigits2 (2 ^ 53)) with 54.
    rewrite fexp_eq. replace (Z.max (54 + e1 - 53) (-1074) - e1) with 1 by lia.
    rewrite shr_spec by done. by simpl shr_m.
  - destruct (Z.eq_dec q 0) as [->|Hq].
    + rewrite shr_none; [done|]. simpl Zdigits2. rewrite fexp_eq. lia.
    + rewrite shr_none; [by simpl shr_m|].
      rewrite fexp_eq, Zdigits2_log2 by lia.
      assert (Z.log2 q < 53) by (apply Z.log2_lt_pow2; lia). lia.
Qed.

(** ** Doubles in the representation of the specification *)

Lemma pack_pos (s : bool) (q e : Z) :
  0 < q → e <= 971 → pack s q e = S754_finite s (Z.to_pos q) e.
Proof.
  intros Hq He. destruct q as [|m|m]; try done. simpl.
  by destruct (Z.leb_spec e 971); [|lia].
Qed.

Lemma double_split (k : Z) :
  k ≠ 0 → is_double (Finite k) = true →
  Z.abs k = mantissa k * 2 ^ shift_of k ∧
  0 < mantissa k < 2 ^ 53 ∧
  (0 < shift_of k → 2 ^ 52 <= mantissa k) ∧
  -1074 <= exponent k <= 971.
Proof.
  intros Hk [Hs Hmax%Z.ltb_lt]%andb_true_iff.
  unfold mantissa, exponent, shift_of in *. unfold significant in Hs.
  set (K := Z.abs k) in *. assert (HK : 0 < K) by (unfold K; lia).
  pose proof (log2_bounds K HK) as [Hlo Hhi].
  destruct (Z.le_gt_cases (Z.log2 K) 52) as [Hsmall|Hbig].
  - rewrite Z.max_r by lia. rewrite Z.pow_0_r, Z.div_1_r, Z.mul_1_r.
    split; [done|]. split; [|split; [lia|lia]].
    split; [done|]. eapply Z.lt_le_trans; [exact Hhi|].
    apply Z.pow_le_mono_r; lia.
  - rewrite Z.max_l by lia. set (t := Z.log2 K - 52) in *.
    assert (Ht : 0 < 2 ^ t) by (apply Z.pow_pos_nonneg; lia).
    assert (Hdiv : K mod 2 ^ t = 0).
    { apply orb_true_iff in Hs as [Hs%Z.ltb_lt|Hs%Z.eqb_eq]; [|done].
      assert (2 ^ 53 <= 2 ^ Z.log2 K) by (apply Z.pow_le_mono_r; lia). lia. }
    pose proof (Z.div_mod K (2 ^ t) ltac:(lia)) as Hdm.
    rewrite Hdiv, Z.add_0_r in Hdm.
    assert (Hlo' : 2 ^ 52 * 2 ^ t <= K).
    { rewrite <- Z.pow_add_r by lia. by replace (52 + t) with (Z.log2 K) by lia. }
    assert (Hhi' : K < 2 ^ 53 * 2 ^ t).
    { rewrite <- Z.pow_add_r by lia.
      by replace (53 + t) with (Z.log2 K + 1) by lia. }
    split; [lia|]. split; [nia|]. split; [nia|].
    assert (Z.log2 K < 2098) by (apply Z.log2_lt_pow2; lia). lia.
Qed.

Lemma fexp_digits (m e : Z) :
  0 < m →
  fexp 53 1024 (Zdigits2 m + e) = Z.max (Z.log2 m + 1 + e - 53) (-1074).
Proof. intros Hm. by rewrite fexp_eq, Zdigits2_log2. Qed.

Lemma binary_round_double (s : bool) (p : positive) :
  is_double (Finite (Z.pos p)) = true →
  binary_round 53 1024 s p (-1074)
  = S754_finite s (Z.to_pos (mantissa (Z.pos p))) (exponent (Z.pos p)).
Proof.
  intros Hd.
  destruct (double_split (Z.pos p) ltac:(done) Hd) as (Hsplit & Hm & Hnorm & He).
  unfold mantissa, exponent, shift_of in *.
  change (Z.abs (Z.pos p)) with (Z.pos p) in *.
  assert (HK : 0 < Z.pos p) by done.
  unfold binary_round.
  change (Z.pos (digits2_pos p)) with (Zdigits2 (Z.pos p)).
  assert (Hshl : shl_align p (-1074) (fexp 53 1024 (Zdigits2 (Z.pos p) + -1074))
                 = (p, -1074)).
  { unfold shl_align. rewrite fexp_digits by done.
    destruct (Z.max (Z.log2 (Z.pos p) + 1 + -1074 - 53) (-1074) - -1074)
      eqn:Hal; try done. lia. }
  rewrite Hshl. set (K := Z.pos p) in *.
  destruct (Z.le_gt_cases (Z.log2 K) 52) as [Hsmall|Hbig].
  - rewrite binary_round_aux_exact by (rewrite ?fexp_digits by done; lia).
    rewrite Z.max_r in * by lia.
    rewrite Z.pow_0_r, Z.div_1_r in *. by apply pack_pos.
  - rewrite Z.max_l in * by lia.
    rewrite binary_round_aux_round by (rewrite ?fexp_digits by done; lia).
    cbv zeta. rewrite fexp_digits by done.
    replace (Z.max (Z.log2 K + 1 + -1074 - 53) (-1074) - -1074)
      with (Z.log2 K - 52) by lia.
    replace (Z.max (Z.log2 K + 1 + -1074 - 53) (-1074))
      with (Z.log2 K - 52 - 1074) by lia.
    assert (Hrem : K mod 2 ^ (Z.log2 K - 52) = 0).
    { apply Z.mod_divide; [apply Z.pow_nonzero; lia|].
      by exists (K / 2 ^ (Z.log2 K - 52)). }
    assert (Hnear : nearest_even K (2 ^ (Z.log2 K - 52))
                    = K / 2 ^ (Z.log2 K - 52)).
    { unfold nearest_even. rewrite Hrem.
      assert (0 < 2 ^ (Z.log2 K - 52)) by (apply Z.pow_pos_nonneg; lia).
      by destruct (Z.ltb_spec (2 * 0) (2 ^ (Z.log2 K - 52))); [|lia]. }
    rewrite Hnear.
    destruct (Z.eqb_spec (K / 2 ^ (Z.log2 K - 52)) (2 ^ 53)); [lia|].
    apply pack_pos; lia.
Qed.

Lemma to_spec_finite (k : Z) :
  k ≠ 0 → is_double (Finite k) = true →
  to_spec (Finite k)
  = S754_finite (k <? 0) (Z.to_pos (mantissa k)) (exponent k).
Proof.
  intros Hk Hd. destruct k as [|p|p]; [done| |].
  - by apply binary_round_double.
  - unfold to_spec, binary_normalize.
    rewrite (binary_round_double true p); [done|].
    by unfold is_double, significant in *.
Qed.

(** The number of a sign, a mantissa and an exponent that are those of a
    double, or of an overflow. *)
Lemma to_spec_signed (s : bool) (q e : Z) :
  0 <= q < 2 ^ 53 → -1074 <= e → 2 ^ 52 <= q ∨ e = -1074 →
  to_spec (signed s (q * 2 ^ (e + 1074))) = pack s q e.
Proof.
  intros Hq He Hcanon.
  destruct (Z.eq_dec q 0) as [->|Hq0]; [by destruct s|].
  assert (Hp : 0 < 2 ^ (e + 1074)) by (apply Z.pow_pos_nonneg; lia).
  set (k := q * 2 ^ (e + 1074)). assert (Hk : 0 < k) by (unfold k; nia).
  assert (Hlog : Z.log2 k = Z.log2 q + (e + 1074)).
  { unfold k. rewrite Z.log2_mul_pow2 by lia. lia. }
  pose proof (log2_bounds q ltac:(lia)) as [Hqlo Hqhi].
  assert (Hlq : Z.log2 q <= 52).
  { assert (Z.log2 q < 53); [|lia]. apply Z.log2_lt_pow2; lia. }
  assert (Hshift : shift_of k = e + 1074 ∧ k mod 2 ^ shift_of k = 0 ∧
                   k / 2 ^ shift_of k = q).
  { unfold shift_of. rewrite Z.abs_eq, Hlog by lia.
    destruct Hcanon as [Hnorm| ->].
    - assert (52 <= Z.log2 q) by (by apply Z.log2_le_pow2; lia).
      replace (Z.max (Z.log2 q + (e + 1074) - 52) 0) with (e + 1074) by lia.
      unfold k. rewrite Z.mod_mul, Z.div_mul by lia. done.
    - replace (Z.max (Z.log2 q + (-1074 + 1074) - 52) 0) with 0 by lia.
      unfold k. simpl. rewrite Z.mod_1_r, Z.div_1_r.
      split; [done|]. split; [done|]. lia. }
  destruct Hshift as (Hsh & Hmod & Hdiv).
  unfold signed. fold k.
  destruct (Z.eqb_spec k 0); [lia|].
  destruct (Z.leb_spec (2 ^ 2098) k) as [Hover|Hfin].
  - assert (971 < e).
    { destruct (Z.le_gt_cases e 971) as [Hle|]; [|done]. exfalso.
      assert (2 ^ (e + 1074) <= 2 ^ 2045) by (apply Z.pow_le_mono_r; lia).
      assert (2 ^ 53 * 2 ^ 2045 = 2 ^ 2098) by (by rewrite <- Z.pow_add_r).
      unfold k in Hover. nia. }
    destruct q as [|m|m]; try done. simpl.
    by destruct (Z.leb_spec e 971); [lia|].
  - assert (He' : e <= 971).
    { destruct (Z.le_gt_cases e 971) as [|Hgt]; [done|]. exfalso.
      destruct Hcanon as [Hnorm|]; [|lia].
      assert (2 ^ 2046 <= 2 ^ (e + 1074)) by (apply Z.pow_le_mono_r; lia).
      assert (2 ^ 52 * 2 ^ 2046 = 2 ^ 2098) by (by rewrite <- Z.pow_add_r).
      unfold k in Hfin. nia. }
    assert (Habs : Z.abs (if s then - k else k) = k) by (destruct s; lia).
    assert (Hshs : shift_of (if s then - k else k) = shift_of k).
    { unfold shift_of. by rewrite Habs, (Z.abs_eq k) by lia. }
    rewrite to_spec_finite.
    + unfold mantissa, exponent. rewrite Hshs, Habs, Hdiv, Hsh.
      replace (e + 1074 - 1074) with e by lia.
      rewrite pack_pos by lia. f_equal. destruct s.
      * apply Z.ltb_lt. lia.
      * apply Z.ltb_ge. lia.
    + destruct s; lia.
    + unfold is_double, significant. rewrite Habs.
      apply andb_true_iff. split; [|by apply Z.ltb_lt].
      apply orb_true_iff.
      destruct (Z.lt_ge_cases k (2 ^ 53)) as [Hsmall|Hbig];
        [left; by apply Z.ltb_lt|right].
      apply Z.eqb_eq.
      assert (53 <= Z.log2 k) by (apply Z.log2_le_pow2; lia).
      unfold shift_of in Hmod. by rewrite Z.abs_eq, Z.max_l in Hmod by lia.
Qed.

(** ** The product *)

Lemma nearest_even_scale (n p c : Z) :
  0 < p → 0 < c → nearest_even (n * c) (p * c) = nearest_even n p.
Proof.
  intros Hp Hc. unfold nearest_even.
  rewrite Z.div_mul_cancel_r, Z.mul_mod_distr_r by lia.
  destruct (Z.ltb_spec (2 * (n mod p)) p);
    destruct (Z.ltb_spec (2 * (n mod p * c)) (p * c)); try nia; try done.
  destruct (Z.ltb_spec p (2 * (n mod p)));
    destruct (Z.ltb_spec (p * c) (2 * (n mod p * c))); try nia; done.
Qed.

Lemma nearest_even_exact (n p : Z) :
  0 < p → n mod p = 0 → nearest_even n p = n / p.
Proof.
  intros Hp Hrem. unfold nearest_even. rewrite Hrem.
  by destruct (Z.ltb_spec (2 * 0) p); [|lia].
Qed.

Lemma nearest_even_53 (m sh : Z) :
  0 < m → 0 <= sh → Z.log2 m - 52 <= sh →
  0 <= nearest_even m (2 ^ sh) <= 2 ^ 53 ∧
  (sh = Z.log2 m - 52 → 2 ^ 52 <= nearest_even m (2 ^ sh)).
Proof.
  intros Hm Hsh Hlog. pose proof (log2_bounds m Hm) as [Hlo Hhi].
  assert (Hp : 0 < 2 ^ sh) by (by apply Z.pow_pos_nonneg).
  assert (Hq : 0 <= m / 2 ^ sh < 2 ^ 53).
  { split; [apply Z.div_pos; lia|]. apply Z.div_lt_upper_bound; [done|].
    rewrite <- Z.pow_add_r by lia. eapply Z.lt_le_trans; [exact Hhi|].
    apply Z.pow_le_mono_r; lia. }
  split.
  - destruct (nearest_even_cases m (2 ^ sh)) as [->|[-> _]]; lia.
  - intros ->. assert (2 ^ 52 <= m / 2 ^ (Z.log2 m - 52)).
    { apply Z.div_le_lower_bound; [done|]. rewrite <- Z.pow_add_r by lia.
      by replace (Z.log2 m - 52 + 52) with (Z.log2 m) by lia. }
    destruct (nearest_even_cases m (2 ^ (Z.log2 m - 52))) as [->|[-> _]]; lia.
Qed.

(** The product of two doubles other than zero is what [binary_round_aux]
    makes of the product of the mantissas and the sum of the exponents. *)
Lemma mul_finite_spec (a b : Z) :
  a ≠ 0 → b ≠ 0 →
  is_double (Finite a) = true → is_double (Finite b) = true →
  to_spec (mul (Finite a) (Finite b))
  = binary_round_aux 53 1024 (xorb (a <? 0) (b <? 0))
      (mantissa a * mantissa b) (exponent a + exponent b) loc_Exact.
Proof.
  intros Ha Hb Hda Hdb.
  destruct (double_split a Ha Hda) as (Hsa & Hma & Hna & Hea).
  destruct (double_split b Hb Hdb) as (Hsb & Hmb & Hnb & Heb).
  unfold exponent in *.
  set (ta := shift_of a) in *. set (tb := shift_of b) in *.
  set (ma := mantissa a) in *. set (mb := mantissa b) in *.
  set (sg := xorb (a <? 0) (b <? 0)).
  assert (Hta : 0 <= ta) by (unfold ta, shift_of; lia).
  assert (Htb : 0 <= tb) by (unfold tb, shift_of; lia).
  set (M := ma * mb). assert (HM : 0 < M) by (unfold M; nia).
  set (E := ta - 1074 + (tb - 1074)).
  set (c := ta + tb).
  assert (Hpc : 0 < 2 ^ c) by (apply Z.pow_pos_nonneg; lia).
  assert (Hn : Z.abs a * Z.abs b = M * 2 ^ c).
  { rewrite Hsa, Hsb. unfold M, c. rewrite Z.pow_add_r by done. lia. }
  change (mul (Finite a) (Finite b))
    with (signed sg (round_even (Z.abs a * Z.abs b) / one)).
  rewrite Hn. set (n := M * 2 ^ c).
  pose proof (log2_bounds M HM) as [HMlo HMhi].
  set (e1 := Z.max (Z.log2 M + 1 + E - 53) (-1074)).
  assert (Hfexp : fexp 53 1024 (Zdigits2 M + E) = e1) by (by apply fexp_digits).
  assert (Hulp : ulp_exp n = e1 + 2148).
  { unfold ulp_exp, n. rewrite Z.log2_mul_pow2 by lia. unfold e1, E, c. lia. }
  assert (Hone : one = 2 ^ 1074) by done.
  unfold round_even. rewrite Hulp.
  destruct (Z.le_gt_cases e1 E) as [Hexact|Hround].
  - (* no bit is lost *)
    rewrite binary_round_aux_exact by (rewrite ?Hfexp; lia).
    assert (Hsplit : 2 ^ c = 2 ^ (E - e1) * 2 ^ (e1 + 2148)).
    { rewrite <- Z.pow_add_r by (unfold e1; lia). f_equal. unfold E, c. lia. }
    assert (Hp1 : 0 < 2 ^ (e1 + 2148)) by (apply Z.pow_pos_nonneg; unfold e1; lia).
    rewrite nearest_even_exact;
      [|done|unfold n; rewrite Hsplit, Z.mul_assoc; apply Z.mod_mul; lia].
    assert (Hback : n / 2 ^ (e1 + 2148) * 2 ^ (e1 + 2148) = n).
    { unfold n. rewrite Hsplit, Z.mul_assoc, Z.div_mul by lia. done. }
    rewrite Hback.
    assert (Hk : n / one = M * 2 ^ (E + 1074)).
    { unfold n. replace (2 ^ c) with (2 ^ (E + 1074) * one).
      - rewrite Z.mul_assoc, Z.div_mul; [done|]. rewrite Hone. by apply Z.pow_nonzero.
      - rewrite Hone, <- Z.pow_add_r by (unfold e1 in *; lia).
        f_equal. unfold E, c. lia. }
    rewrite Hk. apply to_spec_signed.
    + split; [lia|]. eapply Z.lt_le_trans; [exact HMhi|].
      apply Z.pow_le_mono_r; [done|]. unfold e1 in Hexact. lia.
    + unfold e1 in Hexact. lia.
    + destruct (Z.eq_dec E (-1074)) as [|HE]; [by right|left].
      assert (0 < ta ∨ 0 < tb) as [Hpos|Hpos] by (unfold e1, E in *; lia).
      * specialize (Hna Hpos). unfold M. nia.
      * specialize (Hnb Hpos). unfold M. nia.
  - (* bits are lost *)
    rewrite binary_round_aux_round by (rewrite ?Hfexp; lia).
    cbv zeta. rewrite Hfexp.
    assert (He1 : -1074 <= e1) by (unfold e1; lia).
    assert (Hsh : 0 < e1 - E) by lia.
    assert (Hp : 0 < 2 ^ (e1 - E)) by (apply Z.pow_pos_nonneg; lia).
    assert (Hsplit : 2 ^ (e1 + 2148) = 2 ^ (e1 - E) * 2 ^ c).
    { rewrite <- Z.pow_add_r by lia. f_equal. unfold E, c. lia. }
    rewrite Hsplit. unfold n. rewrite nearest_even_scale by done.
    set (q := nearest_even M (2 ^ (e1 - E))).
    destruct (nearest_even_53 M (e1 - E) HM ltac:(lia) ltac:(unfold e1; lia))
      as [Hq Hnorm]. fold q in Hq, Hnorm.
    assert (Hk : q * (2 ^ (e1 - E) * 2 ^ c) / one = q * 2 ^ (e1 + 1074)).
    { rewrite <- Hsplit. replace (2 ^ (e1 + 2148)) with (2 ^ (e1 + 1074) * one).
      - rewrite Z.mul_assoc, Z.div_mul; [done|]. rewrite Hone. by apply Z.pow_nonzero.
      - rewrite Hone, <- Z.pow_add_r by lia. f_equal. lia. }
    rewrite Hk.
    destruct (Z.eqb_spec q (2 ^ 53)) as [Hcarry|Hcarry].
    + rewrite Hcarry.
      replace (2 ^ 53 * 2 ^ (e1 + 1074)) with (2 ^ 52 * 2 ^ (e1 + 1 + 1074)).
      * apply to_spec_signed; [split; by vm_compute|lia|by left].
      * rewrite <- !Z.pow_add_r by lia. f_equal. lia.
    + apply to_spec_signed; [lia|done|].
      destruct (Z.eq_dec e1 (-1074)) as [|Hne]; [by right|left].
      apply Hnorm. unfold e1 in *. lia.
Qed.

(** On doubles, the product is the one of the IEEE 754 specification of the
    standard library, at binary64. *)
Theorem mul_spec (x y : number) :
  is_double x = true → is_double y = true →
  to_spec (mul x y) = SFmul 53 1024 (to_spec x) (to_spec y).
Proof.
  intros Hx Hy.
  assert (Hzero : ∀ s k, to_spec (signed s (round_even (k * 0) / one))
                         = S754_zero s).
  { intros s k. rewrite Z.mul_0_r. by destruct s. }
  assert (Hzero' : ∀ s k, to_spec (signed s (round_even (0 * k) / one))
                          = S754_zero s).
  { intros s k. by destruct s. }
  destruct x as [|s| |a].
  - done.
  - destruct y as [|t| |b]; try done.
    destruct (Z.eq_dec b 0) as [->|Hb]; [done|].
    rewrite (to_spec_finite b) by done. simpl.
    by destruct (Z.eqb_spec b 0); [lia|].
  - destruct y as [|t| |b]; try done.
    destruct (Z.eq_dec b 0) as [->|Hb]; [done|].
    rewrite (to_spec_finite b) by done.
    change (mul NegZero (Finite b))
      with (signed (xorb true (b <? 0)) (round_even (0 * Z.abs b) / one)).
    by rewrite Hzero'.
  - destruct (Z.eq_dec a 0) as [->|Ha].
    + destruct y as [|t| |b]; try done.
      destruct (Z.eq_dec b 0) as [->|Hb]; [done|].
      rewrite (to_spec_finite b) by done.
      change (mul (Finite 0) (Finite b))
        with (signed (xorb false (b <? 0)) (round_even (0 * Z.abs b) / one)).
      by rewrite Hzero'.
    + destruct y as [|t| |b].
      * by rewrite (to_spec_finite a).
      * rewrite (to_spec_finite a) by done. simpl.
        by destruct (Z.eqb_spec a 0); [lia|].
      * rewrite (to_spec_finite a) by done.
        change (mul (Finite a) NegZero)
          with (signed (xorb (a <? 0) true) (round_even (Z.abs a * 0) / one)).
        by rewrite Hzero.
      * destruct (Z.eq_dec b 0) as [->|Hb].
        -- rewrite (to_spec_finite a) by done.
           change (mul (Finite a) (Finite 0))
             with (signed (xorb (a <? 0) false)
                     (round_even (Z.abs a * 0) / one)).
           by rewrite Hzero.
        -- rewrite mul_finite_spec, (to_spec_finite a), (to_spec_finite b)
             by done.
           destruct (double_split a Ha Hx) as (_ & Hma & _).
           destruct (double_split b Hb Hy) as (_ & Hmb & _).
           unfold SFmul. by rewrite Pos2Z.inj_mul, !Z2Pos.id by lia.
Qed.

(** ** Doubles are told apart by their representation *)

Lemma of_Z_double (z : Z) : Z.abs z <= 2 ^ 53 → is_double (of_Z z) = true.
Proof.
  intros Hz. pose proof one_pos as Hone. unfold is_double, of_Z, significant.
  rewrite Z.abs_mul, (Z.abs_eq one) by lia. set (a := Z.abs z) in *.
  assert (Ha : 0 <= a) by (unfold a; lia).
  apply andb_true_iff. split.
  - apply orb_true_iff. right. apply Z.eqb_eq.
    destruct (Z.eq_dec a 0) as [->|Ha0]; [done|].
    unfold one. rewrite Z.log2_mul_pow2 by lia.
    destruct (Z.eq_dec a (2 ^ 53)) as [->|Hne].
    + rewrite Z.log2_pow2 by done. rewrite <- Z.pow_add_r by done.
      by vm_compute.
    + assert (Z.log2 a < 53) by (apply Z.log2_lt_pow2; lia).
      pose proof (Z.log2_nonneg a).
      replace (2 ^ 1074)
        with (2 ^ (1074 - (1074 + Z.log2 a - 52)) * 2 ^ (1074 + Z.log2 a - 52)).
      * rewrite Z.mul_assoc. apply Z.mod_mul. apply Z.pow_nonzero; lia.
      * rewrite <- Z.pow_add_r by lia. f_equal. lia.
  - apply Z.ltb_lt. assert (2 ^ 53 * one < 2 ^ 2098) by (unfold one; by vm_compute).
    nia.
Qed.

Lemma to_spec_inj (x y : number) :
  is_double x = true → is_double y = true → to_spec x = to_spec y → x = y.
Proof.
  assert (Hfin : ∀ k, k ≠ 0 → is_double (Finite k) = true →
                      ∃ s m e, to_spec (Finite k) = S754_finite s m e).
  { intros k Hk Hd. rewrite to_spec_finite by done. eauto. }
  assert (Hne : ∀ k z, k ≠ 0 → is_double (Finite k) = true →
                       to_spec (Finite k) = z →
                       match z with S754_finite _ _ _ => True | _ => False end).
  { intros k z Hk Hd <-. by destruct (Hfin k Hk Hd) as (s & m & e & ->). }
  intros Hx Hy Heq.
  assert (Hleft : ∀ k z, is_double (Finite k) = true →
                         to_spec (Finite k) = z →
                         match z with
                         | S754_finite _ _ _ | S754_zero false => True
                         | _ => False
                         end).
  { intros k z Hd Hz. destruct (Z.eq_dec k 0) as [->|Hk]; [by subst z|].
    pose proof (Hne k z Hk Hd Hz). by destruct z. }
  destruct x as [|s| |a].
  - destruct y as [|t| |b]; try done.
    symmetry in Heq. by apply (Hleft b _ Hy) in Heq.
  - destruct y as [|t| |b]; try done; [by injection Heq as ->|].
    symmetry in Heq. by apply (Hleft b _ Hy) in Heq.
  - destruct y as [|t| |b]; try done.
    symmetry in Heq. by apply (Hleft b _ Hy) in Heq.
  - destruct y as [|t| |b]; try (by apply (Hleft a _ Hx) in Heq).
    destruct (Z.eq_dec a 0) as [->|Ha]; destruct (Z.eq_dec b 0) as [->|Hb].
    + done.
    + symmetry in Heq. by apply (Hne b _ Hb Hy) in Heq.
    + by apply (Hne a _ Ha Hx) in Heq.
    + rewrite (to_spec_finite a), (to_spec_finite b) in Heq by done.
      injection Heq as Hs Hm He.
      destruct (double_split a Ha Hx) as (Hsa & Hma & _).
      destruct (double_split b Hb Hy) as (Hsb & Hmb & _).
      apply Z2Pos.inj in Hm; [|lia..].
      unfold exponent in He. assert (Hsh : shift_of a = shift_of b) by lia.
      assert (Habs : Z.abs a = Z.abs b) by (rewrite Hsa, Hsb, Hm, Hsh; done).
      f_equal.
      destruct (Z.ltb_spec a 0), (Z.ltb_spec b 0); try done; lia.
Qed.

End NumberIEEE.

(** * Properties of the quote selector *)

Module QuotesSpec.
Import Number NumberSpec NumberIEEE Quotes.

(** ** Draws *)

Lemma unit_sample_inv (r : Sample) :
  unit_sample r → ∃ a, r = Finite a ∧ 0 <= a ∧ a + 2 ^ 1021 <= one.
Proof.
  unfold unit_sample, unit_sampleb. destruct r as [|s| |a]; try done.
  intros [[Ha0%Z.leb_le Ha1%Z.ltb_lt]%andb_true_iff Hs]%andb_true_iff.
  exists a. split; [done|]. split; [done|]. by apply significant_gap.
Qed.

Lemma draw_range (r : Sample) (len : Z) :
  unit_sample r → 1 <= len <= 2 ^ 53 → is_index (draw r (of_Z len)) len.
Proof.
  intros (a & -> & Ha0 & Ha1)%unit_sample_inv Hlen. unfold draw, is_index.
  destruct (mul_below a len Ha0 Ha1 Hlen) as (k & -> & Hk).
  by apply floor_below.
Qed.

Lemma unit_sample_double (r : Sample) : unit_sample r → is_double r = true.
Proof.
  unfold unit_sample, unit_sampleb. destruct r as [|s| |a]; try done.
  intros [[Ha0%Z.leb_le Ha1%Z.ltb_lt]%andb_true_iff Hs]%andb_true_iff.
  unfold is_double. rewrite Hs. apply Z.ltb_lt.
  assert (one < 2 ^ 2098) by (unfold one; by vm_compute). lia.
Qed.

(** The product that is floored is the binary64 product of the
    specification of the standard library. *)
Lemma draw_product_spec (r : Sample) (len : Z) :
  unit_sample r → Z.abs len <= 2 ^ 53 →
  to_spec (mul r (of_Z len)) = SFmul 53 1024 (to_spec r) (to_spec (of_Z len)).
Proof.
  intros Hr Hlen. apply mul_spec; [by apply unit_sample_double|].
  by apply of_Z_double.
Qed.

(** At [0.6666666666666666] and length 3 the exact product is below 2, the
    rounded one is 2, and so is the draw. *)
Example draw_two_thirds :
  mul sample_two_thirds (of_Z 3) = of_Z 2 ∧
  draw sample_two_thirds (of_Z 3) = of_Z 2 ∧
  to_spec (mul sample_two_thirds (of_Z 3))
  = S754_finite false 4503599627370496 (-51).
Proof. repeat split; by vm_compute. Qed.

Lemma is_index_not_NaN (x : number) (len : Z) : is_index x len → x ≠ NaN.
Proof. by intros (i & _ & ->). Qed.

(** ** The redraw loop *)

(** On exit [next] differs from [current], and it is the value the loop was
    entered with or one that was drawn. *)
Lemma redraw_exit (rs : list Sample) (current : number) (len : Z) :
  Forall unit_sample rs → 1 <= len <= 2 ^ 53 →
  ∀ next n rest,
    redraw rs current (of_Z len) next = Some (n, rest) →
    strict_eq n current = false ∧ (n = next ∨ is_index n len).
Proof.
  intros Hrs Hlen. induction Hrs as [|r rs Hr Hrs IH]; intros next n rest; simpl.
  - destruct (strict_eq next current) eqn:Heq; [done|].
    intros [= <- <-]. auto.
  - destruct (strict_eq next current) eqn:Heq.
    + intros Hrun. destruct (IH _ _ _ Hrun) as [Hn [->|Hin]].
      * split; [done|]. right. by apply draw_range.
      * auto.
    + intros [= <- <-]. auto.
Qed.

(** The loop adopts the first draw that differs from [current]. *)
Lemma redraw_first_differing (rs rest : list Sample) (current length n : number) :
  current ≠ NaN →
  (redraw rs current length current = Some (n, rest) ↔
   ∃ pre r, rs = pre ++ r :: rest ∧
            Forall (λ s, strict_eq (draw s length) current = true) pre ∧
            draw r length = n ∧ strict_eq n current = false).
Proof.
  intros Hcur%strict_eq_refl. split.
  - revert n rest. induction rs as [|r rs IH]; intros n rest; simpl;
      rewrite Hcur; [done|].
    destruct (strict_eq (draw r length) current) eqn:Heq.
    + destruct rs as [|r' rs']; simpl; rewrite Heq; [done|].
      intros Hrun.
      assert (Hloop : redraw (r' :: rs') current length current
                      = Some (n, rest)) by (simpl; by rewrite Hcur).
      destruct (IH _ _ Hloop) as (pre & r0 & Hsplit & Hpre & Hd & Hn).
      exists (r :: pre), r0. rewrite Hsplit. repeat split; auto.
    + destruct rs as [|r' rs']; simpl; rewrite Heq;
        intros [= <- <-]; exists [], r; repeat split; auto.
  - intros (pre & r & -> & Hpre & <- & Hn).
    induction Hpre as [|s pre Hs Hpre IH]; simpl; rewrite Hcur.
    + destruct rest; simpl; by rewrite Hn.
    + destruct (pre ++ r :: rest) eqn:Hlist; [by destruct pre|].
      simpl in *. rewrite Hs. by rewrite Hcur in IH.
Qed.

(** The loop ends as soon as one of the draws differs from [current]. *)
Lemma redraw_terminates (rs : list Sample) (current length : number) :
  Exists (λ r, strict_eq (draw r length) current = false) rs →
  ∀ next, is_Some (redraw rs current length next).
Proof.
  induction 1 as [r rs Hr|r rs Hrs IH]; intros next; simpl.
  - destruct (strict_eq next current); [|by eexists].
    destruct rs; simpl; rewrite Hr; by eexists.
  - destruct (strict_eq next current); [apply IH | by eexists].
Qed.

(** ** [pickNewIndex] *)

Lemma pickNewIndex_small (rs : list Sample) (current : number) (len : Z) :
  len <= 1 → pickNewIndex rs current (of_Z len) = Some (of_Z 0, rs).
Proof.
  intros H. unfold pickNewIndex. rewrite le_of_Z.
  by destruct (Z.leb_spec len 1); [|lia].
Qed.

Lemma pickNewIndex_large (rs : list Sample) (current : number) (len : Z) :
  2 <= len →
  pickNewIndex rs current (of_Z len) = redraw rs current (of_Z len) current.
Proof.
  intros H. unfold pickNewIndex. rewrite le_of_Z.
  by destruct (Z.leb_spec len 1); [lia|].
Qed.

Lemma pickNewIndex_range (rs rest : list Sample) (current n : number)
    (len : Z) :
  Forall unit_sample rs → 1 <= len <= 2 ^ 53 → current ≠ NaN →
  pickNewIndex rs current (of_Z len) = Some (n, rest) →
  is_index n len.
Proof.
  intros Hrs Hlen Hcur. destruct (Z.le_gt_cases len 1).
  - rewrite pickNewIndex_small by done. intros [= <- _]. exists 0. split; [lia|done].
  - rewrite pickNewIndex_large by lia. intros Hrun.
    destruct (redraw_exit rs current len Hrs Hlen _ _ _ Hrun) as [Hne [->|?]];
      [|done].
    apply strict_eq_refl in Hcur. congruence.
Qed.

(** ** The lookup *)

Lemma count_0 (st : State) : count st = 0 ↔ quotes st = [].
Proof. unfold count. destruct (quotes st); simpl; split; try done; lia. Qed.

Lemma falsy_quotes_length (st : State) :
  falsy (quotes_length st) = true ↔ quotes st = [].
Proof.
  rewrite <- count_0. unfold quotes_length, of_Z, falsy. pose proof one_pos.
  rewrite Z.eqb_eq. nia.
Qed.

Lemma index_of_Z (qs : list QuoteItem) (i : Z) :
  0 <= i < Z.of_nat (length qs) →
  ∃ q, qs !! Z.to_nat i = Some q ∧ index qs (of_Z i) = Item q.
Proof.
  intros Hi. pose proof one_pos. unfold index, of_Z. simpl.
  rewrite Z.mod_mul, Z.div_mul by lia.
  assert (H0 : (0 <=? i * one) = true) by (apply Z.leb_le; nia).
  rewrite H0, Z.eqb_refl. simpl.
  destruct (lookup_lt_is_Some_2 qs (Z.to_nat i)) as [q Hq]; [lia|].
  exists q. by rewrite Hq.
Qed.

(** The lookup gives a quote at the positions of the array only. *)
Lemma index_Item (qs : list QuoteItem) (x : number) (q : QuoteItem) :
  index qs x = Item q →
  ∃ i, 0 <= i < Z.of_nat (length qs) ∧ finite_value x = Some (i * one) ∧
       qs !! Z.to_nat i = Some q.
Proof.
  unfold index. pose proof one_pos.
  destruct (finite_value x) as [k|]; [|done].
  destruct (Z.leb_spec 0 k); [|done].
  destruct (Z.eqb_spec (k mod one) 0) as [Hmod|]; [|done]. simpl.
  destruct (qs !! Z.to_nat (k / one)) as [q'|] eqn:Hq; [|done].
  intros [= ->]. exists (k / one).
  pose proof (lookup_lt_Some _ _ _ Hq) as Hlt.
  assert (0 <= k / one) by (apply Z.div_pos; lia).
  split; [lia|]. split; [|done]. f_equal.
  pose proof (Z.div_mod k one). lia.
Qed.

Lemma index_past_the_end (qs : list QuoteItem) (x : number) :
  le (of_Z (Z.of_nat (length qs))) x = true → index qs x = Undefined.
Proof.
  intros Hle. destruct (index qs x) as [| |q] eqn:Hidx; [done| |].
  - unfold index in Hidx. destruct (finite_value x) as [k|]; [|done].
    destruct ((0 <=? k) && (k mod one =? 0)); [|done].
    by destruct (qs !! Z.to_nat (k / one)).
  - apply index_Item in Hidx as (i & Hi & Hx & _). pose proof one_pos.
    destruct x as [|s| |k]; simpl in Hx, Hle; try done.
    + injection Hx as Hx. apply Z.leb_le in Hle. nia.
    + injection Hx as ->. apply Z.leb_le in Hle. nia.
Qed.

(** The getter never hands [undefined] to the template. *)
Lemma currentQuote_defined (st : State) : currentQuote st ≠ Undefined.
Proof.
  unfold currentQuote. destruct (falsy (quotes_length st)); [done|].
  by destruct (index (quotes st) (currentIndex st)).
Qed.

Lemma currentQuote_in_range (st : State) :
  in_range st →
  ∃ i q, currentIndex st = of_Z i ∧ quotes st !! Z.to_nat i = Some q ∧
         currentQuote st = Item q.
Proof.
  intros (i & Hi & Hidx). unfold currentQuote.
  destruct (falsy (quotes_length st)) eqn:Hf.
  { apply falsy_quotes_length, count_0 in Hf. lia. }
  rewrite Hidx. destruct (index_of_Z (quotes st) i Hi) as (q & Hq & ->).
  by exists i, q.
Qed.

Lemma currentQuote_empty (st : State) :
  quotes st = [] → currentQuote st = Null.
Proof.
  intros Hq%falsy_quotes_length. unfold currentQuote. by rewrite Hq.
Qed.

(** ** [nextQuote] *)

Lemma nextQuote_unfold (rs : list Sample) (st st' : State) (rest : list Sample) :
  nextQuote rs st = Some (st', rest) ↔
  quotes st' = quotes st ∧
  pickNewIndex rs (currentIndex st) (quotes_length st)
    = Some (currentIndex st', rest).
Proof.
  unfold nextQuote. split.
  - destruct (pickNewIndex _ _ _) as [[n rs']|]; [|done].
    by intros [= <- <-].
  - intros [Hq ->]. destruct st'; simpl in *. by rewrite Hq.
Qed.

Lemma nextQuote_in_range (rs : list Sample) (st st' : State) (rest : list Sample) :
  Forall unit_sample rs → quotes st ≠ [] → count st <= 2 ^ 53 →
  currentIndex st ≠ NaN →
  nextQuote rs st = Some (st', rest) → in_range st'.
Proof.
  intros Hrs Hne Hmax Hcur [Hq Hpick]%nextQuote_unfold.
  unfold in_range, count. rewrite Hq. fold (count st).
  apply (pickNewIndex_range rs rest (currentIndex st)); [done| |done|done].
  assert (count st ≠ 0) by (by rewrite count_0).
  unfold count in *. lia.
Qed.

(** ** States of a page session *)

Lemma reachable_invariant (qs : list QuoteItem) (st : State) :
  Z.of_nat (length qs) <= 2 ^ 53 →
  reachable qs st →
  quotes st = qs ∧ (qs = [] → currentIndex st = of_Z 0) ∧ (qs ≠ [] → in_range st).
Proof.
  intros Hmax. induction 1 as [|rs rest st st' Hst (IHq & IH0 & IHr) Hrs Hnext].
  - simpl. split; [done|]. split; [done|].
    intros Hne. exists 0. split; [|done]. unfold count. simpl.
    destruct qs; [done|]. simpl length. lia.
  - pose proof Hnext as [Hq Hpick]%nextQuote_unfold.
    split; [congruence|]. split.
    + intros ->. unfold quotes_length in Hpick.
      rewrite pickNewIndex_small in Hpick.
      * by injection Hpick.
      * unfold count. rewrite IHq. simpl. lia.
    + intros Hne. apply (nextQuote_in_range rs st st' rest); try done.
      * congruence.
      * unfold count. by rewrite IHq.
      * apply (is_index_not_NaN _ (count st)). apply IHr, Hne.
Qed.

(** During a session the getter yields [null] exactly when there is no
    quote. *)
Lemma currentQuote_reachable (qs : list QuoteItem) (st : State) :
  Z.of_nat (length qs) <= 2 ^ 53 →
  reachable qs st → (currentQuote st = Null ↔ qs = []).
Proof.
  intros Hmax (Hq & _ & Hr)%reachable_invariant; [|done]. split.
  - intros Hnull. destruct qs as [|q qs]; [done|].
    destruct (currentQuote_in_range st) as (i & q' & _ & _ & Hq'); [by apply Hr|].
    congruence.
  - intros ->. by apply currentQuote_empty.
Qed.

(** ** The frame of the operations *)

Lemma step_quotes (o : Op) (rs rest : list Sample) (st st' : State) (v : Value) :
  step o rs st = Some (st', v, rest) → quotes st' = quotes st.
Proof.
  destruct o; simpl.
  - by intros [= <- _ _].
  - destruct (nextQuote rs st) as [[st1 rs1]|] eqn:Hnext; [|done].
    intros [= <- _ _]. by apply nextQuote_unfold in Hnext as [? _].
Qed.

Lemma run_quotes (os : list Op) :
  ∀ rs rest st st', run os rs st = Some (st', rest) → quotes st' = quotes st.
Proof.
  induction os as [|o os IH]; intros rs rest st st'; simpl.
  - by intros [= <- _].
  - destruct (step o rs st) as [[[st1 v] rs1]|] eqn:Hstep; [|done].
    intros Hrun. rewrite (IH _ _ _ _ Hrun). by eapply step_quotes.
Qed.

(** ** The claims *)

(** C1. With two quotes or more, the index [nextQuote] stores (the one
    [pickNewIndex] returns) is an integer of [[0, length)] and is not the
    index it replaces, whatever number other than [NaN] the index was and
    whatever doubles of [[0, 1)] [Math.random()] yields; and the loop does
    end when one of the draws differs from the index. *)
Theorem nextQuote_fresh_index (rs : list Sample) (st : State) :
  2 <= count st <= 2 ^ 53 → Forall unit_sample rs → currentIndex st ≠ NaN →
  (∀ st' rest, nextQuote rs st = Some (st', rest) →
     in_range st' ∧
     strict_eq (currentIndex st') (currentIndex st) = false ∧
     currentIndex st' ≠ currentIndex st ∧
     pickNewIndex rs (currentIndex st) (quotes_length st)
       = Some (currentIndex st', rest)) ∧
  (Exists (λ r, strict_eq (draw r (quotes_length st)) (currentIndex st) = false)
     rs →
   is_Some (nextQuote rs st)).
Proof.
  intros Hlen Hrs Hcur. split.
  - intros st' rest Hnext. pose proof Hnext as [Hq Hpick]%nextQuote_unfold.
    assert (Hin : in_range st').
    { apply (nextQuote_in_range rs st st' rest); try done; [|lia].
      intros Hempty%count_0. lia. }
    assert (Hne : strict_eq (currentIndex st') (currentIndex st) = false).
    { unfold quotes_length in Hpick. rewrite pickNewIndex_large in Hpick by lia.
      assert (Hpos : 1 <= count st <= 2 ^ 53) by lia.
      by destruct (redraw_exit rs _ _ Hrs Hpos _ _ _ Hpick). }
    split; [done|]. split; [done|]. split; [|done].
    intros Heq. rewrite Heq in Hne.
    apply strict_eq_refl in Hcur. congruence.
  - intros Hex. unfold nextQuote, quotes_length in *.
    rewrite pickNewIndex_large by lia.
    destruct (redraw_terminates rs _ _ Hex (currentIndex st)) as [[n rest] ->].
    by eexists.
Qed.

Lemma nextQuote_fresh_index_witness :
  ∃ st', nextQuote [sample_0; sample_two_thirds] (useQuotes three_quotes)
           = Some (st', []) ∧
         currentIndex st' = of_Z 2 ∧
         strict_eq (currentIndex st') (of_Z 0) = false.
Proof.
  assert (Hrs : Forall unit_sample [sample_0; sample_two_thirds]).
  { repeat constructor; by vm_compute. }
  assert (Hlen : 2 <= count (useQuotes three_quotes) <= 2 ^ 53).
  { split; by vm_compute. }
  assert (Hcur : currentIndex (useQuotes three_quotes) ≠ NaN) by done.
  destruct (nextQuote_fresh_index [sample_0; sample_two_thirds]
              (useQuotes three_quotes) Hlen Hrs Hcur) as [Hsafe _].
  eexists. split; [by vm_compute|].
  split; [by vm_compute|].
  refine (proj1 (proj2 (Hsafe _ [] _))). by vm_compute.
Defined.

(** C2. With no quote or a single one, [nextQuote] ends without a draw and
    stores index 0; with a single quote the getter then yields that quote,
    which is the one it yielded before whenever it yielded one. *)
Theorem nextQuote_degenerate (rs : list Sample) (st : State) :
  count st <= 1 →
  ∃ st', nextQuote rs st = Some (st', rs) ∧
         currentIndex st' = of_Z 0 ∧
         quotes st' = quotes st ∧
         ∀ q, quotes st = [q] →
              currentQuote st' = Item q ∧
              ∀ q0, currentQuote st = Item q0 → currentQuote st' = Item q0.
Proof.
  intros Hlen. unfold nextQuote, quotes_length.
  rewrite pickNewIndex_small by done.
  eexists. split; [reflexivity|]. split; [done|]. split; [done|].
  intros q Hone.
  assert (Hnew : currentQuote {| quotes := quotes st; currentIndex := of_Z 0 |}
                 = Item q).
  { destruct (currentQuote_in_range
                {| quotes := quotes st; currentIndex := of_Z 0 |})
      as (i & q' & Hi%of_Z_inj & Hq' & ->).
    - exists 0. split; [|done]. unfold count. simpl. rewrite Hone. simpl. lia.
    - subst i. simpl in Hq'. rewrite Hone in Hq'. by injection Hq' as ->. }
  split; [done|]. intros q0 Hold. rewrite Hnew. f_equal.
  unfold currentQuote in Hold.
  destruct (falsy (quotes_length st)); [done|].
  destruct (index (quotes st) (currentIndex st)) as [| |q1] eqn:Hidx; try done.
  injection Hold as ->.
  apply index_Item in Hidx as (i & Hi & _ & Hq0).
  rewrite Hone in Hi, Hq0. simpl in Hi.
  assert (i = 0) as -> by lia. by injection Hq0.
Qed.

Lemma nextQuote_degenerate_witness :
  ∃ st', nextQuote [] (useQuotes one_quote) = Some (st', []) ∧
         currentIndex st' = of_Z 0 ∧ currentQuote st' = Item (quote_of "A").
Proof.
  assert (Hlen : count (useQuotes one_quote) <= 1) by (by vm_compute).
  destruct (nextQuote_degenerate [] (useQuotes one_quote) Hlen)
    as (st' & Hnext & Hidx & _ & Hone).
  exists st'. split; [exact Hnext|]. split; [exact Hidx|].
  exact (proj1 (Hone _ eq_refl)).
Defined.

(** C3. In the states of the spec, whose index is an integer of
    [[0, length)] when there are quotes, the getter yields [null] if and only
    if there is no quote. *)
Theorem currentQuote_null_iff_empty (st : State) :
  (quotes st ≠ [] → in_range st) →
  (currentQuote st = Null ↔ quotes st = []).
Proof.
  intros Hspec. split.
  - intros Hnull. destruct (quotes st) as [|q qs] eqn:Hq; [done|].
    destruct (currentQuote_in_range st) as (i & q' & _ & _ & Hq');
      [by apply Hspec|congruence].
  - apply currentQuote_empty.
Qed.

Lemma currentQuote_null_iff_empty_witness :
  currentQuote {| quotes := three_quotes; currentIndex := of_Z 2 |} ≠ Null ∧
  currentQuote (useQuotes []) = Null.
Proof.
  split.
  - intros Hnull.
    apply (currentQuote_null_iff_empty
             {| quotes := three_quotes; currentIndex := of_Z 2 |}) in Hnull.
    + discriminate Hnull.
    + intros _. exists 2. split; [|reflexivity]. split; by vm_compute.
  - apply (currentQuote_null_iff_empty (useQuotes [])); [|reflexivity].
    by intros [].
Defined.

(** C8. No operation of the composable changes the collection: after a read
    of [currentQuote] the state is the one before, and after [nextQuote] the
    quotes and their number are the ones before. *)
Theorem quotes_never_mutated (o : Op) (rs rest : list Sample)
    (st st' : State) (v : Value) :
  step o rs st = Some (st', v, rest) →
  quotes st' = quotes st ∧
  quotes_length st' = quotes_length st ∧
  (o = ReadCurrentQuote → st' = st).
Proof.
  intros Hstep. pose proof (step_quotes _ _ _ _ _ _ Hstep) as Hq.
  split; [done|]. split; [unfold quotes_length, count; by rewrite Hq|].
  intros ->. simpl in Hstep. by injection Hstep.
Qed.

Lemma quotes_never_mutated_witness :
  ∃ st', nextQuote [sample_half] (useQuotes three_quotes) = Some (st', []) ∧
         quotes st' = three_quotes ∧ quotes_length st' = of_Z 3.
Proof.
  assert (Hstep : step CallNextQuote [sample_half] (useQuotes three_quotes)
                  = Some ({| quotes := three_quotes; currentIndex := of_Z 1 |},
                          Undefined, [])) by (by vm_compute).
  exists {| quotes := three_quotes; currentIndex := of_Z 1 |}.
  split; [by vm_compute|].
  destruct (quotes_never_mutated _ _ _ _ _ _ Hstep) as (Hq & Hl & _).
  split; [exact Hq|exact Hl].
Defined.

(** C9. With quotes and the index at the length or past it, the lookup is
    [undefined] and the getter yields [null]. *)
Theorem currentQuote_past_the_end (st : State) :
  quotes st ≠ [] → le (quotes_length st) (currentIndex st) = true →
  index (quotes st) (currentIndex st) = Undefined ∧ currentQuote st = Null.
Proof.
  intros _ Hge. pose proof (index_past_the_end _ _ Hge) as Hidx.
  split; [done|]. unfold currentQuote. rewrite Hidx.
  by destruct (falsy (quotes_length st)).
Qed.

Lemma currentQuote_past_the_end_witness :
  currentQuote {| quotes := three_quotes; currentIndex := of_Z 7 |} = Null.
Proof.
  refine (proj2 (currentQuote_past_the_end
                   {| quotes := three_quotes; currentIndex := of_Z 7 |} _ _)).
  - by intros [=].
  - by vm_compute.
Defined.

(** C10, as the code has it. With one quote or more, whatever number other
    than [NaN] [pickNewIndex] is given as the index, in range or not, whole
    or not, the index it returns is an integer of [[0, length)]; so
    [nextQuote] leaves the index on one of the quotes. *)
Theorem pickNewIndex_restores_range (rs : list Sample) :
  Forall unit_sample rs →
  (∀ current len n rest,
     1 <= len <= 2 ^ 53 → current ≠ NaN →
     pickNewIndex rs current (of_Z len) = Some (n, rest) →
     is_index n len) ∧
  (∀ st st' rest,
     quotes st ≠ [] → count st <= 2 ^ 53 → currentIndex st ≠ NaN →
     nextQuote rs st = Some (st', rest) →
     in_range st').
Proof.
  intros Hrs. split.
  - intros current len n rest Hlen Hcur. by apply pickNewIndex_range.
  - intros st st' rest Hne Hmax Hcur Hnext.
    by apply (nextQuote_in_range rs st st' rest).
Qed.

Lemma pickNewIndex_restores_range_witness :
  ∃ st', nextQuote [sample_half]
           {| quotes := three_quotes; currentIndex := Infinity true |}
           = Some (st', []) ∧
         in_range st'.
Proof.
  assert (Hrs : Forall unit_sample [sample_half]).
  { repeat constructor; by vm_compute. }
  eexists. split; [by vm_compute|].
  refine (proj2 (pickNewIndex_restores_range [sample_half] Hrs)
            {| quotes := three_quotes; currentIndex := Infinity true |}
            _ [] _ _ _ _).
  - by intros [=].
  - by vm_compute.
  - done.
  - by vm_compute.
Defined.

(** C10, as the claim has it, fails: given [NaN] as the index, with three
    quotes, [pickNewIndex] skips the loop, [NaN === NaN] being false, and
    returns [NaN] without a draw; [nextQuote] stores it. *)
Lemma pickNewIndex_NaN :
  pickNewIndex [sample_half] NaN (of_Z 3) = Some (NaN, [sample_half]) ∧
  ¬ is_index NaN 3 ∧
  ∃ st', nextQuote [sample_half] {| quotes := three_quotes; currentIndex := NaN |}
           = Some (st', [sample_half]) ∧
         ¬ in_range st'.
Proof.
  split; [by vm_compute|]. split.
  - by intros (i & _ & Hi).
  - eexists. split; [by vm_compute|]. by intros (i & _ & Hi).
Qed.

End QuotesSpec.

(** * Properties of the theme switch *)

Module ThemeSpec.
Import Theme.

(** Unfolds the statements of the component down to the world they leave. *)
Ltac run_M :=
  unfold onMounted, resolveInitial, applyTheme, toggle, getItem, setItem,
    setAttribute, read_isDark, write_isDark, prefers_dark,
    mbind, M_bind, mret, M_ret; simpl.

(** ** The primitives *)

Lemma prefers_dark_hint (w : World) :
  prefers_dark w = (Normal (default false (os_hint w)), w).
Proof.
  unfold prefers_dark, os_hint. destruct (window w) as [win|]; simpl; [|done].
  by destruct (matchMedia win).
Qed.

Lemma strict_eq_spec (saved : option string) (s : string) :
  strict_eq saved s = true ↔ saved = Some s.
Proof.
  destruct saved as [t|]; simpl; [|done].
  rewrite String.eqb_eq. split; congruence.
Qed.

Lemma strict_eq_false (saved : option string) (s : string) :
  strict_eq saved s = false ↔ saved ≠ Some s.
Proof.
  rewrite <- strict_eq_spec. by destruct (strict_eq saved s).
Qed.

(** ** [applyTheme] *)

Lemma applyTheme_store (dark : bool) (w : World) (store : gmap string string) :
  localStorage w = Some store →
  applyTheme dark w =
    (Normal tt,
     {| window := window w;
        localStorage := Some (<[STORAGE_KEY := theme_name dark]> store);
        attributes := <["data-theme"%string := theme_name dark]> (attributes w);
        isDark := isDark w |}).
Proof. intros Hs. run_M. by rewrite Hs. Qed.

(** Without a store [applyTheme] raises, after it has set the attribute. *)
Lemma applyTheme_no_store (dark : bool) (w : World) :
  localStorage w = None →
  ∃ w', applyTheme dark w = (Throw, w') ∧
        attributes w' !! "data-theme"%string = Some (theme_name dark).
Proof.
  intros Hs. run_M. rewrite Hs. eexists. split; [done|]. simpl.
  apply lookup_insert_eq.
Qed.

(** ** The resolution of the initial theme *)

Lemma resolveInitial_store (w : World) (store : gmap string string) :
  localStorage w = Some store →
  let dark := resolved (store !! STORAGE_KEY) (os_hint w) in
  resolveInitial w =
    (Normal dark,
     {| window := window w; localStorage := localStorage w;
        attributes := attributes w; isDark := dark |}).
Proof.
  intros Hs. unfold resolved, resolveInitial, getItem, mbind, M_bind.
  rewrite Hs.
  destruct (strict_eq (store !! STORAGE_KEY) "dark"
            || strict_eq (store !! STORAGE_KEY) "light").
  - simpl. by rewrite Hs.
  - rewrite prefers_dark_hint. simpl. by rewrite Hs.
Qed.

Lemma resolveInitial_no_store (w : World) :
  localStorage w = None → resolveInitial w = (Throw, w).
Proof. intros Hs. run_M. by rewrite Hs. Qed.

(** With a store the resolution ends normally, whether or not the platform
    has a hint. *)
Lemma resolveInitial_normal (w : World) :
  is_Some (localStorage w) → ∃ dark w', resolveInitial w = (Normal dark, w').
Proof.
  intros [store Hs]. rewrite (resolveInitial_store w store Hs). eauto.
Qed.

Lemma resolved_theme_name (dark : bool) (hint : option bool) :
  resolved (Some (theme_name dark)) hint = dark.
Proof. by destruct dark. Qed.

Lemma resolved_absent (saved : option string) (hint : option bool) :
  saved ≠ Some "dark"%string → saved ≠ Some "light"%string →
  resolved saved hint = default false hint.
Proof.
  intros Hd%strict_eq_false Hl%strict_eq_false. unfold resolved.
  by rewrite Hd, Hl.
Qed.

(** ** The hook and the switch *)

Lemma onMounted_store (w : World) (store : gmap string string) :
  localStorage w = Some store →
  let dark := resolved (store !! STORAGE_KEY) (os_hint w) in
  onMounted w =
    (Normal tt,
     {| window := window w;
        localStorage := Some (<[STORAGE_KEY := theme_name dark]> store);
        attributes := <["data-theme"%string := theme_name dark]> (attributes w);
        isDark := dark |}).
Proof.
  intros Hs. unfold onMounted, mbind, M_bind.
  rewrite (resolveInitial_store w store Hs). simpl.
  by rewrite (applyTheme_store _ _ store).
Qed.

Lemma toggle_store (w : World) (store : gmap string string) :
  localStorage w = Some store →
  ∃ w', toggle w = (Normal tt, w') ∧
        isDark w' = negb (isDark w) ∧
        persisted w' = Some (theme_name (negb (isDark w))).
Proof.
  intros Hs. unfold toggle, read_isDark, write_isDark, mbind, M_bind.
  rewrite (applyTheme_store _ _ store) by done.
  eexists. split; [done|]. split; [done|].
  unfold persisted. simpl. apply lookup_insert_eq.
Qed.

(** ** The claims *)

(** C4. With a store, [applyTheme] ends normally, and the resolution of the
    initial theme after a reload of the page (same store, same platform) gives
    back the theme that was applied, whatever the hint of the operating
    system. *)
Theorem applyTheme_reload_roundtrip (dark : bool) (w : World) :
  is_Some (localStorage w) →
  ∃ w', applyTheme dark w = (Normal tt, w') ∧
        persisted w' = Some (theme_name dark) ∧
        os_hint (reload w') = os_hint w ∧
        ∃ w'', resolveInitial (reload w') = (Normal dark, w'') ∧
               isDark w'' = dark.
Proof.
  intros [store Hs]. rewrite (applyTheme_store dark w store Hs).
  eexists. split; [done|]. split; [|split; [done|]].
  - unfold persisted. simpl. apply lookup_insert_eq.
  - erewrite resolveInitial_store by done.
    rewrite lookup_insert_eq, resolved_theme_name. eauto.
Qed.

Lemma applyTheme_reload_roundtrip_witness :
  ∃ w' w'', applyTheme false first_visit_dark = (Normal tt, w') ∧
            os_hint (reload w') = Some true ∧
            resolveInitial (reload w') = (Normal false, w'').
Proof.
  destruct (applyTheme_reload_roundtrip false first_visit_dark)
    as (w' & Happly & _ & Hhint & w'' & Hresolve & _).
  - by eexists.
  - exists w', w''. split; [exact Happly|]. split; [exact Hhint|exact Hresolve].
Defined.

(** C5. With nothing in the store under the key, the resolution gives dark
    when the operating system prefers dark, and light when it does not or
    when the platform has no hint. *)
Theorem resolveInitial_first_visit (w : World) (store : gmap string string) :
  localStorage w = Some store → store !! STORAGE_KEY = None →
  (os_hint w = Some true → (resolveInitial w).1 = Normal true) ∧
  (os_hint w = Some false → (resolveInitial w).1 = Normal false) ∧
  (os_hint w = None → (resolveInitial w).1 = Normal false).
Proof.
  intros Hs Hkey. rewrite (resolveInitial_store w store Hs). simpl.
  rewrite Hkey, resolved_absent by done.
  repeat split; by intros ->.
Qed.

Lemma resolveInitial_first_visit_witness :
  (resolveInitial first_visit_dark).1 = Normal true.
Proof.
  refine (proj1 (resolveInitial_first_visit first_visit_dark ∅ eq_refl _) eq_refl).
  apply lookup_empty.
Defined.

(** C6, on a platform that refuses access to the store: the first statement
    of the hook, [localStorage.getItem(STORAGE_KEY)], raises, so that the
    resolution ends there and gives no theme. *)
Theorem resolveInitial_no_store_throws :
  resolveInitial no_store = (Throw, no_store) ∧
  onMounted no_store = (Throw, no_store).
Proof.
  split.
  - by apply resolveInitial_no_store.
  - unfold onMounted, mbind, M_bind. by rewrite resolveInitial_no_store.
Qed.

(** C7. With a store, the resolution gives the theme the store holds when
    that is ["dark"] or ["light"]; with nothing under the key, or another
    string, what the store holds plays no part and the resolution gives the
    hint of the operating system: dark when it prefers dark, light when it
    does not or when the platform has no hint. *)
Theorem resolveInitial_tiers (w : World) (store : gmap string string) :
  localStorage w = Some store →
  (∀ dark, store !! STORAGE_KEY = Some (theme_name dark) →
           (resolveInitial w).1 = Normal dark) ∧
  (store !! STORAGE_KEY ≠ Some "dark"%string →
   store !! STORAGE_KEY ≠ Some "light"%string →
   (os_hint w = Some true → (resolveInitial w).1 = Normal true) ∧
   (os_hint w = Some false → (resolveInitial w).1 = Normal false) ∧
   (os_hint w = None → (resolveInitial w).1 = Normal false)).
Proof.
  intros Hs. rewrite (resolveInitial_store w store Hs). simpl. split.
  - intros dark ->. by rewrite resolved_theme_name.
  - intros Hd Hl. rewrite resolved_absent by done.
    repeat split; by intros ->.
Qed.

Lemma resolveInitial_tiers_witness :
  (resolveInitial stale_store).1 = Normal true.
Proof.
  refine (proj1 (proj2 (resolveInitial_tiers stale_store
                          {[ STORAGE_KEY := "blue"%string ]} eq_refl) _ _)
            eq_refl).
  - rewrite lookup_singleton_eq. by intros [=].
  - rewrite lookup_singleton_eq. by intros [=].
Defined.

End ThemeSpec.

(** * More on the quote selector *)

Module QuotesMore.
Import Number NumberSpec Quotes QuotesSpec.

(** ** Samples *)

(** The samples left over by the loop are the last of the samples given. *)
Lemma redraw_suffix (rs : list Sample) (current length : number) :
  ∀ next n rest,
    redraw rs current length next = Some (n, rest) → ∃ pre, rs = pre ++ rest.
Proof.
  induction rs as [|r rs IH]; intros next n rest; simpl;
    destruct (strict_eq next current); try done.
  - intros [= _ <-]. by exists [].
  - intros (pre & ->)%IH. by exists (r :: pre).
  - intros [= _ <-]. by exists [].
Qed.

Lemma nextQuote_samples_left (rs rest : list Sample) (st st' : State) :
  Forall unit_sample rs → nextQuote rs st = Some (st', rest) →
  Forall unit_sample rest.
Proof.
  intros Hrs [_ Hpick]%nextQuote_unfold. unfold pickNewIndex in Hpick.
  destruct (le (quotes_length st) (of_Z 1)).
  - by injection Hpick as _ <-.
  - apply redraw_suffix in Hpick as [pre ->]. by apply Forall_app in Hrs as [_ ?].
Qed.

Lemma run_reachable (qs : list QuoteItem) (os : list Op) :
  ∀ rs rest st0 st,
    reachable qs st0 → Forall unit_sample rs →
    run os rs st0 = Some (st, rest) → reachable qs st.
Proof.
  induction os as [|[|] os IH]; intros rs rest st0 st Hst0 Hrs; simpl.
  - by intros [= <- _].
  - by apply IH.
  - destruct (nextQuote rs st0) as [[st1 rs1]|] eqn:Hnext; [|done].
    apply IH.
    + by apply (reachable_next qs rs rs1 st0 st1).
    + by apply (nextQuote_samples_left rs rs1 st0 st1).
Qed.

(** ** What [pickNewIndex] returns *)

(** X1. When the test [length <= 1] fails and the index is not [NaN],
    [pickNewIndex] returns the first draw that differs from the index, having
    used up the samples of the draws before it, which all fell on the
    index. *)
Theorem pickNewIndex_first_differing (rs rest : list Sample)
    (current length n : number) :
  le length (of_Z 1) = false → current ≠ NaN →
  (pickNewIndex rs current length = Some (n, rest) ↔
   ∃ pre r, rs = pre ++ r :: rest ∧
            Forall (λ s, strict_eq (draw s length) current = true) pre ∧
            draw r length = n ∧ strict_eq n current = false).
Proof.
  intros Hlen Hcur. unfold pickNewIndex. rewrite Hlen.
  by apply redraw_first_differing.
Qed.

Lemma pickNewIndex_first_differing_witness :
  pickNewIndex [sample_two_thirds; sample_0; sample_half] (of_Z 2) (of_Z 3)
  = Some (of_Z 0, [sample_half]).
Proof.
  apply (pickNewIndex_first_differing
           [sample_two_thirds; sample_0; sample_half] [sample_half]
           (of_Z 2) (of_Z 3) (of_Z 0)); [by vm_compute|done|].
  exists [sample_two_thirds], sample_0. split; [reflexivity|]. split; [|split].
  - constructor; [by vm_compute|constructor].
  - by vm_compute.
  - by vm_compute.
Defined.

(** X2. When the test [length <= 1] fails and the index is not [NaN], the
    loop of [pickNewIndex] ends on the samples given exactly when one of the
    draws differs from the index: as long as the draws repeat the index, it
    goes on. *)
Theorem pickNewIndex_returns_iff (rs : list Sample) (current length : number) :
  le length (of_Z 1) = false → current ≠ NaN →
  (is_Some (pickNewIndex rs current length) ↔
   Exists (λ r, strict_eq (draw r length) current = false) rs).
Proof.
  intros Hlen Hcur. unfold pickNewIndex. rewrite Hlen. split.
  - intros [[n rest] Hrun].
    apply redraw_first_differing in Hrun as (pre & r & -> & _ & <- & Hne);
      [|done].
    apply Exists_app. right. by left.
  - intros Hex. by apply redraw_terminates.
Qed.

Lemma pickNewIndex_returns_iff_witness :
  ¬ is_Some (pickNewIndex [sample_two_thirds; sample_three_quarters]
               (of_Z 2) (of_Z 3)) ∧
  is_Some (pickNewIndex [sample_two_thirds; sample_half] (of_Z 2) (of_Z 3)).
Proof.
  split.
  - intros Hsome.
    apply (pickNewIndex_returns_iff
             [sample_two_thirds; sample_three_quarters] (of_Z 2) (of_Z 3))
      in Hsome; [|by vm_compute|done].
    apply Exists_cons in Hsome as [Hne|Hsome]; [by vm_compute in Hne|].
    apply Exists_cons in Hsome as [Hne|Hsome]; [by vm_compute in Hne|].
    by apply Exists_nil in Hsome.
  - apply (pickNewIndex_returns_iff
             [sample_two_thirds; sample_half] (of_Z 2) (of_Z 3));
      [by vm_compute|done|].
    right. left. by vm_compute.
Defined.

(** X3. With two quotes or more and an index that is a number other than
    [NaN] and equal to no integer of [[0, length)], [pickNewIndex] takes the
    first draw and uses up one sample. *)
Theorem pickNewIndex_from_outside (r : Sample) (rest : list Sample)
    (current : number) (len : Z) :
  2 <= len <= 2 ^ 53 → current ≠ NaN →
  (∀ i, 0 <= i < len → strict_eq (of_Z i) current = false) →
  unit_sample r →
  pickNewIndex (r :: rest) current (of_Z len)
  = Some (draw r (of_Z len), rest).
Proof.
  intros Hlen Hcur Hout Hr. rewrite pickNewIndex_large by lia.
  apply redraw_first_differing; [done|]. exists [], r.
  split; [done|]. split; [constructor|]. split; [done|].
  destruct (draw_range r len Hr) as (i & Hi & ->); [lia|]. by apply Hout.
Qed.

Lemma pickNewIndex_from_outside_witness :
  pickNewIndex [sample_two_thirds; sample_0] (double 3 (-1)) (of_Z 3)
  = Some (of_Z 2, [sample_0]).
Proof.
  assert (Hdraw : draw sample_two_thirds (of_Z 3) = of_Z 2) by (by vm_compute).
  rewrite <- Hdraw.
  apply (pickNewIndex_from_outside sample_two_thirds [sample_0]
           (double 3 (-1)) 3).
  - split; by vm_compute.
  - done.
  - intros i Hi. rewrite strict_eq_sym.
    assert (i = 0 ∨ i = 1 ∨ i = 2) as [->|[->| ->]] by lia; by vm_compute.
  - by vm_compute.
Defined.

(** ** Draws that fall on a given position *)

(** A multiple of [2^-53] below 1 is a double of [[0, 1)]. *)
Lemma unit_sample_multiple (c : Z) :
  0 <= c < 2 ^ 53 → unit_sample (Finite (c * 2 ^ 1021)).
Proof.
  intros Hc. pose proof (Z.pow_pos_nonneg 2 1021 ltac:(done) ltac:(done)) as Ht.
  unfold unit_sample, unit_sampleb. rewrite !andb_true_iff. split; [split|].
  - apply Z.leb_le. nia.
  - apply Z.ltb_lt. rewrite one_split. nia.
  - unfold significant. rewrite Z.abs_eq by nia. apply orb_true_iff.
    destruct (Z.lt_ge_cases (c * 2 ^ 1021) (2 ^ 53)) as [|Hbig];
      [left; by apply Z.ltb_lt|right].
    apply Z.eqb_eq.
    assert (Ha : 0 < c * 2 ^ 1021) by (pose proof (Z.pow_pos_nonneg 2 53); lia).
    assert (Hlo : 53 <= Z.log2 (c * 2 ^ 1021)) by (by apply Z.log2_le_pow2).
    assert (Hhi : Z.log2 (c * 2 ^ 1021) < 1074).
    { apply Z.log2_lt_pow2; [done|]. fold one. rewrite one_split. nia. }
    set (t := Z.log2 (c * 2 ^ 1021) - 52).
    replace (2 ^ 1021) with (2 ^ (1021 - t) * 2 ^ t).
    + rewrite Z.mul_assoc. apply Z.mod_mul. apply Z.pow_nonzero; lia.
    + rewrite <- Z.pow_add_r by lia. f_equal. lia.
Qed.

(** For a length that an array can have, every position is the draw of some
    double of [[0, 1)]. *)
Lemma draw_hits (len i : Z) :
  1 <= len <= 2 ^ 32 → 0 <= i < len →
  ∃ r, unit_sample r ∧ draw r (of_Z len) = of_Z i.
Proof.
  intros Hlen Hi. pose proof one_pos as Hone.
  pose proof (Z.pow_pos_nonneg 2 1021 ltac:(done) ltac:(done)) as Ht.
  set (c := (i * 2 ^ 53 + len - 1) / len).
  assert (Hc1 : i * 2 ^ 53 <= c * len < i * 2 ^ 53 + len).
  { pose proof (Z.div_mod (i * 2 ^ 53 + len - 1) len ltac:(lia)) as Hd.
    pose proof (Z.mod_pos_bound (i * 2 ^ 53 + len - 1) len ltac:(lia)).
    fold c in Hd. lia. }
  assert (Hc : 0 <= c < 2 ^ 53).
  { split; [apply Z.div_pos; lia|]. apply Z.div_lt_upper_bound; [lia|].
    change (2 ^ 53) with 9007199254740992. nia. }
  exists (Finite (c * 2 ^ 1021)). split; [by apply unit_sample_multiple|].
  destruct (unit_sample_inv _ (unit_sample_multiple c Hc))
    as (a & [= <-] & Ha0 & Ha1).
  unfold draw.
  destruct (mul_below (c * 2 ^ 1021) len Ha0 Ha1) as (k & Hmul & Hk);
    [change (2 ^ 53) with 9007199254740992; change (2 ^ 32) with 4294967296 in Hlen; lia|].
  rewrite Hmul. unfold floor, of_Z. do 2 f_equal.
  (* the product, before and after rounding *)
  unfold mul, of_Z, negative, magnitude, signed in Hmul.
  assert (Hsa : (c * 2 ^ 1021 <? 0) = false) by (apply Z.ltb_ge; lia).
  assert (Hsl : (len * one <? 0) = false) by (apply Z.ltb_ge; nia).
  rewrite Hsa, Hsl, (Z.abs_eq (c * 2 ^ 1021)), (Z.abs_eq (len * one)) in Hmul
    by nia.
  simpl xorb in Hmul.
  set (n := c * 2 ^ 1021 * (len * one)) in *.
  set (w := 2 ^ 1021 * one).
  assert (Hw : 0 < w) by (unfold w; nia).
  assert (Hone2 : one * one = 2 ^ 53 * w).
  { unfold w. rewrite one_split at 1. lia. }
  assert (Hn : n = c * len * w) by (unfold n, w; lia).
  assert (Hrange : i * (one * one) <= round_even n < (i + 1) * (one * one)).
  { pose proof (ulp_exp_pos n) as Hp.
    pose proof (Z.div_mod n (2 ^ ulp_exp n) ltac:(lia)) as Hdiv.
    pose proof (Z.mod_pos_bound n (2 ^ ulp_exp n) Hp) as Hmod.
    assert (Hn0 : 0 <= n) by nia.
    assert (Hexp : 1074 <= ulp_exp n <= 2148).
    { unfold ulp_exp. split; [lia|]. apply Z.max_lub; [|lia].
      destruct (Z.eq_dec n 0) as [->|]; [simpl; lia|].
      assert (Z.log2 n < 2200); [|lia].
      apply Z.log2_lt_pow2; [lia|].
      assert (n < 2 ^ 32 * (2 ^ 53 * w)); [|].
      { rewrite Hn. change (2 ^ 32) with 4294967296 in *.
        change (2 ^ 53) with 9007199254740992 in *. nia. }
      assert (2 ^ 32 * (2 ^ 53 * w) <= 2 ^ 2200); [|lia].
      unfold w, one. by vm_compute. }
    assert (Hlow : i * (one * one) <= n / 2 ^ ulp_exp n * 2 ^ ulp_exp n).
    { assert (Hdivides : one * one = 2 ^ (2148 - ulp_exp n) * 2 ^ ulp_exp n).
      { rewrite <- Z.pow_add_r by lia. unfold one. rewrite <- Z.pow_add_r by lia.
        f_equal. lia. }
      rewrite Hdivides, Z.mul_assoc.
      apply Z.mul_le_mono_nonneg_r; [lia|].
      apply Z.div_le_lower_bound; [lia|].
      rewrite Z.mul_comm, <- Z.mul_assoc, <- Hdivides, Hone2. nia. }
    destruct (round_even_cases n) as [->|[-> Hhalf]].
    - split; [done|]. rewrite Hone2. change (2 ^ 53) with 9007199254740992 in *.
      nia.
    - split; [lia|].
      destruct (Z.eq_dec (ulp_exp n) 1074) as [Hs|Hs].
      + rewrite Hs in *. fold one in Hmod, Hhalf, Hdiv, Hp |- *.
        assert (Hrem : n mod one = 0).
        { unfold n. rewrite Z.mul_assoc. apply Z.mod_mul. lia. }
        lia.
      + assert (Hnpos : 0 < n).
        { destruct (Z.eq_dec n 0) as [H0|]; [|lia].
          exfalso. apply Hs. rewrite H0. reflexivity. }
        pose proof (ulp_exp_normal n Hnpos Hs) as Hnorm.
        rewrite Hone2. change (2 ^ 53) with 9007199254740992 in *.
        change (2 ^ 52) with 4503599627370496 in *.
        change (2 ^ 32) with 4294967296 in *. nia. }
  set (v := round_even n) in *.
  assert (Hkv : k = v / one).
  { destruct (v / one =? 0) eqn:H0; [apply Z.eqb_eq in H0; congruence|].
    destruct (2 ^ 2098 <=? v / one); [done|congruence]. }
  rewrite Hkv, Z.div_div by lia. symmetry.
  apply Z.div_unique with (v - i * (one * one)); [|lia].
  left. nia.
Qed.

(** X4. With a length from 2 on that an array can have, every position
    other than the index can come out of the next call: there is a double of
    [[0, 1)] on which [pickNewIndex] returns it at the first draw. *)
Theorem pickNewIndex_reaches (rest : list Sample) (current : number)
    (len i : Z) :
  2 <= len <= 2 ^ 32 → 0 <= i < len → current ≠ NaN →
  strict_eq (of_Z i) current = false →
  ∃ r, unit_sample r ∧
       pickNewIndex (r :: rest) current (of_Z len) = Some (of_Z i, rest).
Proof.
  intros Hlen Hi Hcur Hne.
  destruct (draw_hits len i) as (r & Hr & Hd); [lia|done|].
  exists r. split; [done|].
  rewrite pickNewIndex_large by lia.
  apply redraw_first_differing; [done|]. exists [], r.
  split; [done|]. split; [constructor|]. by split.
Qed.

Lemma pickNewIndex_reaches_witness :
  ∃ r, unit_sample r ∧
       pickNewIndex [r] (of_Z 0) (of_Z 3) = Some (of_Z 2, []).
Proof.
  apply (pickNewIndex_reaches [] (of_Z 0) 3 2); [split| |done|]; by vm_compute.
Defined.

(** ** Sessions *)

(** X5. With exactly two quotes and the index on one of them, [nextQuote]
    moves the index to the other one. *)
Theorem nextQuote_two_quotes (rs rest : list Sample) (st st' : State) :
  count st = 2 → in_range st → Forall unit_sample rs →
  nextQuote rs st = Some (st', rest) →
  ∃ i, currentIndex st = of_Z i ∧ currentIndex st' = of_Z (1 - i).
Proof.
  intros Hlen (i & Hi & Hcur) Hrs [_ Hpick]%nextQuote_unfold.
  unfold quotes_length in Hpick. rewrite Hlen, Hcur in Hpick.
  rewrite pickNewIndex_large in Hpick by lia.
  assert (Hpos : 1 <= 2 <= 2 ^ 53) by (split; by vm_compute).
  destruct (redraw_exit rs _ _ Hrs Hpos _ _ _ Hpick) as [Hne Hor].
  exists i. split; [done|].
  destruct Hor as [Heq|(j & Hj & Hnew)].
  - rewrite Heq, strict_eq_of_Z, Z.eqb_refl in Hne. done.
  - rewrite Hnew, strict_eq_of_Z in Hne. apply Z.eqb_neq in Hne.
    rewrite Hnew. f_equal. lia.
Qed.

Lemma nextQuote_two_quotes_witness :
  ∃ st', nextQuote [sample_three_quarters]
           {| quotes := [quote_of "A"; quote_of "B"]; currentIndex := of_Z 0 |}
           = Some (st', []) ∧
         currentIndex st' = of_Z 1.
Proof.
  eexists. split; [by vm_compute|].
  destruct (nextQuote_two_quotes [sample_three_quarters] []
              {| quotes := [quote_of "A"; quote_of "B"];
                 currentIndex := of_Z 0 |}
              {| quotes := [quote_of "A"; quote_of "B"];
                 currentIndex := of_Z 1 |}) as (i & Hi%of_Z_inj & Hnew).
  - reflexivity.
  - exists 0. split; [|reflexivity]. split; by vm_compute.
  - constructor; [by vm_compute|constructor].
  - by vm_compute.
  - subst i. exact Hnew.
Defined.

(** X6. Whatever reads and calls of [nextQuote] follow [useQuotes()], the
    collection is the one loaded, the index is 0 when it is empty, and the
    index is on one of the quotes when it is not. *)
Theorem session_invariant (qs : list QuoteItem) (os : list Op)
    (rs rest : list Sample) (st : State) :
  Z.of_nat (length qs) <= 2 ^ 53 → Forall unit_sample rs →
  run os rs (useQuotes qs) = Some (st, rest) →
  quotes st = qs ∧
  (qs = [] → currentIndex st = of_Z 0) ∧
  (qs ≠ [] → in_range st).
Proof.
  intros Hmax Hrs Hrun. apply reachable_invariant; [done|].
  apply (run_reachable qs os rs rest (useQuotes qs)); [constructor|done|done].
Qed.

Lemma session_invariant_witness :
  ∃ st, run [CallNextQuote; ReadCurrentQuote; CallNextQuote]
          [sample_half; sample_half; sample_two_thirds]
          (useQuotes three_quotes) = Some (st, []) ∧
        quotes st = three_quotes ∧ in_range st.
Proof.
  assert (Hrs : Forall unit_sample [sample_half; sample_half; sample_two_thirds]).
  { repeat (constructor; [by vm_compute|]). constructor. }
  eexists. split; [by vm_compute|].
  destruct (session_invariant three_quotes
              [CallNextQuote; ReadCurrentQuote; CallNextQuote]
              [sample_half; sample_half; sample_two_thirds] []
              {| quotes := three_quotes; currentIndex := of_Z 2 |})
    as (Hq & _ & Hin); [by vm_compute|exact Hrs|by vm_compute|].
  split; [exact Hq|]. apply Hin. by intros [=].
Defined.

End QuotesMore.

(** * More on the theme switch *)

Module ThemeMore.
Import Theme ThemeState ThemeSpec.

Lemma world_eq (w : World) (win : option Window)
    (store : option (gmap string string)) (attrs : gmap string string)
    (dark : bool) :
  window w = win → localStorage w = store → attributes w = attrs →
  isDark w = dark →
  {| window := win; localStorage := store; attributes := attrs;
     isDark := dark |} = w.
Proof. destruct w; simpl. by intros -> -> -> ->. Qed.

Lemma synced_store (w : World) :
  synced w →
  ∃ store, localStorage w = Some store ∧
           store !! STORAGE_KEY = Some (theme_name (isDark w)).
Proof.
  intros [_ Hp]. unfold persisted in Hp.
  destruct (localStorage w) as [store|]; [|done]. by exists store.
Qed.

Lemma applyTheme_synced (w : World) :
  synced w → applyTheme (isDark w) w = (Normal tt, w).
Proof.
  intros Hw. destruct (synced_store w Hw) as (store & Hs & Hk).
  rewrite (applyTheme_store _ _ store Hs). f_equal.
  apply world_eq; [done| |symmetry; by apply insert_id, Hw|done].
  by rewrite Hs, insert_id.
Qed.

(** ** [applyTheme] *)

(** X9. With a store, [applyTheme] ends normally; it writes the name of the
    theme under the key of the component and in the attribute [data-theme],
    and leaves every other key of the store, every other attribute, [window]
    and [isDark] as they are. *)
Theorem applyTheme_frame (dark : bool) (w : World) :
  is_Some (localStorage w) →
  ∃ w', applyTheme dark w = (Normal tt, w') ∧
        stored STORAGE_KEY w' = Some (theme_name dark) ∧
        attributes w' !! "data-theme"%string = Some (theme_name dark) ∧
        (∀ key, key ≠ STORAGE_KEY → stored key w' = stored key w) ∧
        (∀ a, a ≠ "data-theme"%string → attributes w' !! a = attributes w !! a) ∧
        window w' = window w ∧ isDark w' = isDark w.
Proof.
  intros [store Hs]. rewrite (applyTheme_store dark w store Hs).
  eexists. split; [done|]. unfold stored. simpl. rewrite Hs. simpl.
  split; [apply lookup_insert_eq|]. split; [apply lookup_insert_eq|].
  split; [|split; [|done]].
  - intros key Hkey. by apply lookup_insert_ne.
  - intros a Ha. by apply lookup_insert_ne.
Qed.

Lemma applyTheme_frame_witness :
  ∃ w', applyTheme false dark_visit = (Normal tt, w') ∧
        stored STORAGE_KEY w' = Some "light"%string ∧
        stored "lang" w' = Some "fr"%string ∧
        attributes w' !! "lang"%string = Some "fr"%string.
Proof.
  destruct (applyTheme_frame false dark_visit)
    as (w' & Happly & Hkey & _ & Hkeys & Hattrs & _).
  - by eexists.
  - exists w'. split; [exact Happly|]. split; [exact Hkey|]. split.
    + rewrite (Hkeys "lang"%string) by done. reflexivity.
    + rewrite (Hattrs "lang"%string) by done. reflexivity.
Defined.

(** X10. Applying a theme twice in a row is applying it once: the second
    call of [applyTheme], as the watcher makes after the hook has changed
    [isDark], changes nothing. *)
Theorem applyTheme_twice (dark : bool) (w : World) :
  (applyTheme dark ;; applyTheme dark) w = applyTheme dark w.
Proof.
  unfold mbind at 1, M_bind. destruct (localStorage w) as [store|] eqn:Hs.
  - rewrite (applyTheme_store dark w store Hs).
    erewrite applyTheme_store by done. simpl.
    by rewrite !insert_insert_eq.
  - destruct (applyTheme_no_store dark w Hs) as (w' & -> & _). done.
Qed.

(** ** The hook *)

(** X11. With a store, the hook ends normally and leaves the attribute
    [data-theme], the store and [isDark] in agreement, on the theme the store
    held or, failing that, the one of the hint of the operating system. *)
Theorem onMounted_syncs (w : World) :
  is_Some (localStorage w) →
  ∃ w', onMounted w = (Normal tt, w') ∧
        synced w' ∧
        isDark w' = resolved (persisted w) (os_hint w) ∧
        window w' = window w.
Proof.
  intros [store Hs]. rewrite (onMounted_store w store Hs).
  eexists. split; [done|]. unfold synced, persisted. simpl. rewrite Hs. simpl.
  repeat split; apply lookup_insert_eq.
Qed.

Lemma onMounted_syncs_witness :
  ∃ w', onMounted first_visit_dark = (Normal tt, w') ∧
        attributes w' !! "data-theme"%string = Some "dark"%string ∧
        persisted w' = Some "dark"%string ∧ isDark w' = true.
Proof.
  destruct (onMounted_syncs first_visit_dark) as (w' & Hrun & [Ha Hp] & Hd & _).
  - by eexists.
  - exists w'. split; [exact Hrun|].
    assert (Hdark : isDark w' = true) by (rewrite Hd; reflexivity).
    rewrite Hdark in Ha, Hp. split; [exact Ha|]. split; [exact Hp|exact Hdark].
Defined.

(** X12. On a world where the attribute, the store and [isDark] agree, the
    hook changes nothing: mounting the switch again in the same document is
    harmless. *)
Theorem onMounted_synced (w : World) :
  synced w → onMounted w = (Normal tt, w).
Proof.
  intros Hw. destruct (synced_store w Hw) as (store & Hs & Hk).
  unfold onMounted, mbind, M_bind.
  rewrite (resolveInitial_store w store Hs). simpl.
  rewrite Hk, resolved_theme_name.
  assert (Hsame : {| window := window w; localStorage := localStorage w;
                     attributes := attributes w; isDark := isDark w |} = w)
    by (by destruct w).
  rewrite Hsame. by apply applyTheme_synced.
Qed.

Lemma onMounted_synced_witness :
  onMounted dark_visit = (Normal tt, dark_visit).
Proof.
  apply (onMounted_synced dark_visit). split.
  - apply lookup_insert_eq.
  - unfold persisted. simpl. apply lookup_insert_eq.
Defined.

(** X13. The theme of the first visit sticks: once the hook has run with a
    store, the hook of every later visit, whatever the operating system
    prefers by then, ends on the same theme and leaves the store as it is. *)
Theorem onMounted_sticky (w : World) :
  is_Some (localStorage w) →
  ∃ w1, onMounted w = (Normal tt, w1) ∧
        ∀ win, ∃ w2,
          onMounted (with_window win (reload w1)) = (Normal tt, w2) ∧
          isDark w2 = isDark w1 ∧ localStorage w2 = localStorage w1.
Proof.
  intros [store Hs]. rewrite (onMounted_store w store Hs).
  eexists. split; [done|]. intros win.
  erewrite onMounted_store by done. simpl.
  rewrite lookup_insert_eq, resolved_theme_name.
  eexists. split; [done|]. split; [done|]. simpl.
  by rewrite insert_insert_eq.
Qed.

Lemma onMounted_sticky_witness :
  ∃ w1 w2, onMounted first_visit_dark = (Normal tt, w1) ∧
           onMounted (with_window (window dark_visit) (reload w1))
             = (Normal tt, w2) ∧
           isDark w2 = isDark w1.
Proof.
  destruct (onMounted_sticky first_visit_dark) as (w1 & Hrun & Hlater).
  - by eexists.
  - destruct (Hlater (window dark_visit)) as (w2 & Hrun2 & Hdark & _).
    exists w1, w2. split; [exact Hrun|]. split; [exact Hrun2|exact Hdark].
Defined.

(** X14. The resolution of the initial theme writes [isDark] and nothing
    else: [window], the store and the attributes are as before, and when it
    raises the world is untouched. *)
Theorem resolveInitial_frame (w : World) :
  window (resolveInitial w).2 = window w ∧
  localStorage (resolveInitial w).2 = localStorage w ∧
  attributes (resolveInitial w).2 = attributes w ∧
  ((resolveInitial w).1 = Throw → (resolveInitial w).2 = w).
Proof.
  destruct (localStorage w) as [store|] eqn:Hs.
  - by rewrite (resolveInitial_store w store Hs).
  - by rewrite (resolveInitial_no_store w Hs).
Qed.

Lemma resolveInitial_frame_witness :
  (resolveInitial dark_no_store).2 = dark_no_store.
Proof.
  apply (proj2 (proj2 (proj2 (resolveInitial_frame dark_no_store)))).
  reflexivity.
Defined.

(** ** The switch *)

(** X15. With a store, a flip of the switch ends normally, negates [isDark]
    and leaves the attribute, the store and [isDark] in agreement. *)
Theorem toggle_syncs (w : World) :
  is_Some (localStorage w) →
  ∃ w', toggle w = (Normal tt, w') ∧
        isDark w' = negb (isDark w) ∧ synced w'.
Proof.
  intros [store Hs]. unfold toggle, read_isDark, write_isDark, mbind, M_bind.
  rewrite (applyTheme_store _ _ store) by done.
  eexists. split; [done|]. split; [done|].
  unfold synced, persisted. simpl. split; apply lookup_insert_eq.
Qed.

Lemma toggle_syncs_witness :
  ∃ w', toggle dark_visit = (Normal tt, w') ∧ isDark w' = false ∧
        persisted w' = Some "light"%string.
Proof.
  destruct (toggle_syncs dark_visit) as (w' & Hrun & Hdark & _ & Hp).
  - by eexists.
  - exists w'. split; [exact Hrun|]. split; [exact Hdark|].
    rewrite Hdark in Hp. exact Hp.
Defined.

(** X16. Two flips of the switch bring a world where the attribute, the
    store and [isDark] agree back to itself. *)
Theorem toggle_twice (w : World) :
  synced w → (toggle ;; toggle) w = (Normal tt, w).
Proof.
  intros Hw. destruct (synced_store w Hw) as (store & Hs & Hk).
  destruct Hw as [Ha _].
  unfold toggle, read_isDark, write_isDark, mbind, M_bind.
  rewrite (applyTheme_store _ _ store) by done. simpl.
  erewrite applyTheme_store by done. simpl.
  rewrite negb_involutive, !insert_insert_eq. f_equal.
  apply world_eq; [done| |symmetry; by apply insert_id|done].
  by rewrite Hs, insert_id.
Qed.

Lemma toggle_twice_witness :
  (toggle ;; toggle) dark_visit = (Normal tt, dark_visit).
Proof.
  apply (toggle_twice dark_visit). split.
  - apply lookup_insert_eq.
  - unfold persisted. simpl. apply lookup_insert_eq.
Defined.

(** X17. A flip of the switch survives the reload: with a store, the
    resolution of the next visit gives the negated theme, whatever the
    operating system prefers by then. *)
Theorem toggle_reload (w : World) :
  is_Some (localStorage w) →
  ∃ w', toggle w = (Normal tt, w') ∧
        ∀ win, (resolveInitial (with_window win (reload w'))).1
               = Normal (negb (isDark w)).
Proof.
  intros [store Hs]. unfold toggle, read_isDark, write_isDark, mbind, M_bind.
  rewrite (applyTheme_store _ _ store) by done.
  eexists. split; [done|]. intros win.
  erewrite resolveInitial_store by done. simpl.
  by rewrite lookup_insert_eq, resolved_theme_name.
Qed.

Lemma toggle_reload_witness :
  ∃ w', toggle first_visit_dark = (Normal tt, w') ∧
        (resolveInitial (with_window (window dark_visit) (reload w'))).1
          = Normal true.
Proof.
  destruct (toggle_reload first_visit_dark) as (w' & Hrun & Hlater).
  - by eexists.
  - exists w'. split; [exact Hrun|]. exact (Hlater (window dark_visit)).
Defined.

(** X18. Without a store, a flip of the switch raises in [setItem], after
    [isDark] is negated and the attribute [data-theme] set: the page changes
    theme, and nothing is kept for the next visit. *)
Theorem toggle_no_store (w : World) :
  localStorage w = None →
  ∃ w', toggle w = (Throw, w') ∧
        isDark w' = negb (isDark w) ∧
        attributes w' !! "data-theme"%string
          = Some (theme_name (negb (isDark w))) ∧
        localStorage w' = None.
Proof.
  intros Hs. unfold toggle, read_isDark, write_isDark, mbind, M_bind. run_M.
  rewrite Hs. eexists. split; [done|]. simpl.
  split; [done|]. split; [apply lookup_insert_eq|done].
Qed.

Lemma toggle_no_store_witness :
  ∃ w', toggle dark_no_store = (Throw, w') ∧ isDark w' = true ∧
        attributes w' !! "data-theme"%string = Some "dark"%string.
Proof.
  destruct (toggle_no_store dark_no_store eq_refl) as (w' & Hrun & Hd & Ha & _).
  exists w'. split; [exact Hrun|]. split; [exact Hd|exact Ha].
Defined.

End ThemeMore.

(** * The page *)

Module HomeViewSpec.
Import Number NumberSpec Quotes QuotesSpec QuotesMore HomeView.

Lemma render_fallback (st : State) :
  (∃ message, render st = Fallback message) ↔ currentQuote st = Null.
Proof.
  unfold render. pose proof (currentQuote_defined st) as Hdef. split.
  - intros [message Hm]. by destruct (currentQuote st).
  - intros ->. by eexists.
Qed.

(** X7. Whatever reads and clicks follow [useQuotes()], the page shows the
    paragraph [Aucune citation disponible.] when no quote was loaded, and
    otherwise the card of the quote at the current index, with its text as
    the citation. *)
Theorem render_session (qs : list QuoteItem) (os : list Op)
    (rs rest : list Sample) (st : State) :
  Z.of_nat (length qs) <= 2 ^ 53 → Forall unit_sample rs →
  run os rs (useQuotes qs) = Some (st, rest) →
  (qs = [] → render st = Fallback "Aucune citation disponible.") ∧
  (qs ≠ [] →
   ∃ i q, currentIndex st = of_Z i ∧ qs !! Z.to_nat i = Some q ∧
          render st = Shown (card_of q) ∧
          citation_text (card_of q) = text q).
Proof.
  intros Hmax Hrs Hrun.
  assert (Hreach : reachable qs st).
  { apply (run_reachable qs os rs rest (useQuotes qs)); [constructor|done..]. }
  destruct (reachable_invariant qs st Hmax Hreach) as (Hq & _ & Hin). split.
  - intros Hqs. unfold render.
    by rewrite (proj2 (currentQuote_reachable qs st Hmax Hreach) Hqs).
  - intros Hqs.
    destruct (currentQuote_in_range st (Hin Hqs)) as (i & q & Hidx & Hlook & Hcur).
    exists i, q. rewrite <- Hq. split; [done|]. split; [done|].
    unfold render. by rewrite Hcur.
Qed.

Lemma render_session_witness :
  ∃ st, run [CallNextQuote; ReadCurrentQuote] [sample_two_thirds]
          (useQuotes three_quotes) = Some (st, []) ∧
        render st = Shown (card_of (quote_of "C")).
Proof.
  eexists. split; [by vm_compute|].
  destruct (render_session three_quotes [CallNextQuote; ReadCurrentQuote]
              [sample_two_thirds] []
              {| quotes := three_quotes; currentIndex := of_Z 2 |})
    as [_ Hshown]; [by vm_compute|constructor; [by vm_compute|constructor]|
                    by vm_compute|].
  destruct Hshown as (i & q & Hi%of_Z_inj & Hlook & Hrender & _);
    [by intros [=]|].
  subst i. injection Hlook as <-. exact Hrender.
Defined.

(** X8. The text given to the photo as [alt] is never empty; it is
    [Photo auteur] exactly when the quote has no author or an author whose
    name is the empty string, and [Photo de] followed by the name
    otherwise. *)
Theorem photo_alt_cases (q : QuoteItem) :
  photo_alt q ≠ ""%string ∧
  (photo_alt q = "Photo auteur"%string ↔
   author q = None ∨ ∃ a, author q = Some a ∧ name a = ""%string) ∧
  (∀ a, author q = Some a → name a ≠ ""%string →
        photo_alt q = String.append "Photo de " (name a)).
Proof.
  unfold photo_alt, author_name, truthy.
  destruct (author q) as [a|]; simpl.
  - destruct (String.eqb_spec (name a) "") as [Hname|Hname]; simpl.
    + split; [done|]. split; [|by intros ? [= <-]].
      split; [|done]. intros _. right. by exists a.
    + split; [done|]. split; [|by intros ? [= <-]].
      split; [by intros [=]|]. by intros [?|(a' & [= <-] & ?)].
  - split; [done|]. split; [|done]. split; [|done]. by left.
Qed.

Lemma photo_alt_cases_witness :
  photo_alt {| text := "Festina lente";
               author := Some {| name := "Augustus"; bio := None;
                                 photo := None |} |}
  = "Photo de Augustus"%string.
Proof.
  refine (proj2 (proj2 (photo_alt_cases
            {| text := "Festina lente";
               author := Some {| name := "Augustus"; bio := None;
                                 photo := None |} |}))
            {| name := "Augustus"; bio := None; photo := None |} eq_refl _).
  by intros [=].
Defined.

End HomeViewSpec.
